(** * Continuity2017 consensus election: a shallow embedding of [lib/consensus.js]

    The development embeds the consensus decision functions of
    [lib/consensus.js] (branch building, X/Y candidate search, the
    support/precommit tally and the derivation of the committed hashes) and
    proves properties of them.

    Modelling conventions.
    - An event object is a record of its immutable fields.  Object identity
      is identity of [eventHash] ([history.eventMap] is keyed by it), so
      [Array.includes], [Set.has] and [_.uniq] on events compare hashes.
    - [history] is the list [history.events]; the [_parents] links of an event
      are kept as the hashes of the linked objects and resolved in the
      history.
    - The properties the algorithm attaches to event objects ([_treeParent],
      [_generation], [_supporting], [_votes], ...) live in finite maps keyed
      by event hash, one map per property.  All of them start out absent: the
      model is one invocation on a fresh snapshot.
    - A plain JS object whose key order is observable ([Object.keys],
      [_.values], [for .. in]) is an association list in insertion order; its
      keys are elector ids or hashes, never array-index-like strings or names
      inherited from [Object.prototype].  Objects only ever looked up by key
      are [gmap]s.
    - Every [while] loop runs on a budget of iterations and the result of a
      computation is an [outcome]: a value, a thrown [TypeError], or an
      exhausted budget. *)

From stdpp Require Import base option list strings gmap.

(** ** Data model *)

Record Event := mkEvent {
  eventHash : string;          (* e.eventHash *)
  creator : string;            (* e.meta.continuity2017.creator *)
  treeHash : option string;    (* e.event.treeHash *)
  parentHash : list string;    (* e.event.parentHash *)
  parentRefs : list string     (* e._parents, by hash of the linked object *)
}.

#[global] Instance Event_eq_dec : EqDecision Event.
Proof. solve_decision. Defined.

Definition History := list Event.

Definition eventMap (h : History) (k : string) : option Event :=
  find (λ e, bool_decide (eventHash e = k)) h.

Definition _parents (h : History) (e : Event) : list Event :=
  omap (eventMap h) (parentRefs e).

Definition _getCreator (e : Event) : string := creator e.

Abbreviation Descendants := (gmap string (list Event)).

(** ** Outcomes *)

Inductive outcome (A : Type) : Type :=
| Ret (a : A)
| Throw
| Timeout.
Arguments Ret {A} a.
Arguments Throw {A}.
Arguments Timeout {A}.

#[global] Instance outcome_ret : MRet outcome := λ A a, Ret a.
#[global] Instance outcome_bind : MBind outcome := λ A B f m,
  match m with
  | Ret a => f a
  | Throw => Throw
  | Timeout => Timeout
  end.

(** [o.field] on a value that may be [undefined]. *)
Definition deref {A} (o : option A) : outcome A :=
  match o with
  | Some a => Ret a
  | None => Throw
  end.

(** ** Arrays, Sets and insertion-ordered objects *)

Definition includes (e : Event) (l : list Event) : bool :=
  bool_decide (eventHash e ∈ eventHash <$> l).

(** [_.uniq]: first occurrences, in order. *)
Fixpoint uniqBy {A} (key : A → string) (l : list A) : list A :=
  match l with
  | [] => []
  | x :: l' => x :: filter (λ y, key y ≠ key x) (uniqBy key l')
  end.

Definition uniq : list Event → list Event := uniqBy eventHash.
Definition uniqStr : list string → list string := uniqBy id.

(** [Set.prototype.add] on an insertion-ordered set. *)
Definition setAdd (s : list string) (x : string) : list string :=
  if bool_decide (x ∈ s) then s else s ++ [x].

Definition setAddEvent (s : list Event) (e : Event) : list Event :=
  if includes e s then s else s ++ [e].

Fixpoint oget {V} (k : string) (o : list (string * V)) : option V :=
  match o with
  | [] => None
  | (k', v) :: o' => if bool_decide (k' = k) then Some v else oget k o'
  end.

Fixpoint oset {V} (k : string) (v : V) (o : list (string * V))
  : list (string * V) :=
  match o with
  | [] => [(k, v)]
  | (k', v') :: o' =>
      if bool_decide (k' = k) then (k, v) :: o' else (k', v') :: oset k v o'
  end.

Definition okeys {V} (o : list (string * V)) : list string := o.*1.
Definition ovalues {V} (o : list (string * V)) : list V := o.*2.

(** ** twoThirdsMajority *)

Definition twoThirdsMajority (electorCount : nat) : nat :=
  if bool_decide (electorCount ≤ 3) then electorCount
  else electorCount / 3 * 2 + 1.

(** ** _getElectorBranches *)

Record Links := mkLinks {
  _treeParent : gmap string Event;
  _treeChildren : gmap string (list Event);
  _generation : gmap string nat
}.

Definition noLinks : Links := mkLinks ∅ ∅ ∅.

Definition treeChildrenOf (tc : gmap string (list Event)) (e : Event)
  : list Event := default [] (tc !! eventHash e).

(** [_.find(e._parents, p => p.eventHash === treeHash)]. *)
Definition findTreeParent (h : History) (e : Event) : option Event :=
  find (λ p, bool_decide (Some (eventHash p) = treeHash e)) (_parents h e).

(** One iteration of [for(const e of history.events)]. *)
Definition linkEvent (h : History) (electorSet : list string)
    (acc : list (string * list Event) * Links) (e : Event)
  : list (string * list Event) * Links :=
  let '(electorTails, lk) := acc in
  let creator := _getCreator e in
  if bool_decide (creator ∈ electorSet) then
    match findTreeParent h e with
    | Some p =>
        (electorTails,
         mkLinks (<[eventHash e := p]> (_treeParent lk))
                 (<[eventHash p := treeChildrenOf (_treeChildren lk) p ++ [e]]>
                    (_treeChildren lk))
                 (_generation lk))
    | None =>
        (oset creator (default [] (oget creator electorTails) ++ [e])
              electorTails,
         lk)
    end
  else acc.

(** The [while(next.length > 0)] loop that numbers one elector's branch. *)
Fixpoint setGenerations (n : nat) (tc : gmap string (list Event))
    (generation : nat) (next : list Event) (gen : gmap string nat)
  : outcome (gmap string nat) :=
  match next with
  | [] => Ret gen
  | _ :: _ =>
      match n with
      | 0 => Timeout
      | S n' =>
          setGenerations n' tc (S generation)
            (flat_map (treeChildrenOf tc) next)
            (foldl (λ g event, <[eventHash event := generation]> g) gen next)
      end
  end.

Fixpoint setAllGenerations (budget : nat) (tc : gmap string (list Event))
    (electorTails : list (string * list Event)) (gen : gmap string nat)
  : outcome (gmap string nat) :=
  match electorTails with
  | [] => Ret gen
  | (_, next) :: rest =>
      gen' ← setGenerations budget tc 1 next gen;
      setAllGenerations budget tc rest gen'
  end.

Definition _getElectorBranches (budget : nat) (h : History)
    (electors : list string) : outcome (list (string * list Event) * Links) :=
  let electorSet := electors in
  let '(electorTails, lk) := foldl (linkEvent h electorSet) ([], noLinks) h in
  gen ← setAllGenerations budget (_treeChildren lk) electorTails
         (_generation lk);
  Ret (electorTails, mkLinks (_treeParent lk) (_treeChildren lk) gen).

(** ** Shared graph utilities *)

Section Graph.
Context (budget : nat) (h : History).

(** One iteration of [for(let parent of event._parents)]. *)
Definition addParent (event : Event) (acc : Descendants * list Event)
    (parent : Event) : Descendants * list Event :=
  let '(descendants, next) := acc in
  match descendants !! eventHash parent with
  | Some d =>
      if includes event d then acc
      else (<[eventHash parent := d ++ [event]]> descendants, next)
  | None =>
      (<[eventHash parent := [event]]> descendants, next ++ [parent])
  end.

Definition visitEvent (ancestryMap : gset string)
    (acc : Descendants * list Event) (event : Event)
  : Descendants * list Event :=
  if bool_decide (eventHash event ∈ ancestryMap) then acc
  else foldl (addParent event) acc (_parents h event).

Fixpoint descendantsLoop (n : nat) (ancestryMap : gset string)
    (next : list Event) (descendants : Descendants) : outcome Descendants :=
  match next with
  | [] => Ret descendants
  | _ :: _ =>
      match n with
      | 0 => Timeout
      | S n' =>
          let '(descendants', next') :=
            foldl (visitEvent ancestryMap) (descendants, []) next in
          descendantsLoop n' ancestryMap next' descendants'
      end
  end.

(** [x] only supplies the default [ancestryMap], which callers here always
    pass explicitly. *)
Definition _findDescendantsInPath (y : Event) (descendants : Descendants)
    (ancestryMap : gset string) : outcome Descendants :=
  descendantsLoop budget ancestryMap [y] descendants.

Definition childrenIn (descendants : Descendants) (current : list Event)
  : list Event :=
  flat_map (λ event, default [] (descendants !! eventHash event)) current.

Fixpoint flattenLoop (n : nat) (descendants : Descendants)
    (next result : list Event) : outcome (list Event) :=
  match next with
  | [] => Ret (uniq result)
  | _ :: _ =>
      match n with
      | 0 => Timeout
      | S n' =>
          let next' := uniq (childrenIn descendants next) in
          flattenLoop n' descendants next' (result ++ next')
      end
  end.

Definition _flattenDescendants (x : Event) (descendants : Descendants)
  : outcome (list Event) :=
  flattenLoop budget descendants [x] [].

(** The innermost [for(const e of d)] of [_hasSufficientEndorsements]; the
    boolean records that [return true] was reached. *)
Definition endorse (electorSet : list string) (supermajority : nat)
    (acc : list string * nat * bool) (e : Event)
  : list string * nat * bool :=
  let '(endorsements, total, found) := acc in
  if found then acc
  else
    let creator := _getCreator e in
    if bool_decide (creator ∉ endorsements)
       && bool_decide (creator ∈ electorSet)
    then (endorsements ++ [creator], S total,
          bool_decide (supermajority ≤ S total))
    else acc.

Definition endorseAll (descendants : Descendants) (electorSet : list string)
    (supermajority : nat) (acc : list string * nat * bool) (event : Event)
  : list string * nat * bool :=
  match descendants !! eventHash event with
  | Some d => foldl (endorse electorSet supermajority) acc d
  | None => acc
  end.

Fixpoint endorsementsLoop (n : nat) (descendants : Descendants)
    (electorSet : list string) (supermajority : nat)
    (endorsements : list string) (total : nat) (next : list Event)
  : outcome bool :=
  match next with
  | [] => Ret false
  | _ :: _ =>
      match n with
      | 0 => Timeout
      | S n' =>
          let '(endorsements', total', found) :=
            foldl (endorseAll descendants electorSet supermajority)
                  (endorsements, total, false) next in
          if found then Ret true
          else endorsementsLoop n' descendants electorSet supermajority
                 endorsements' total' (uniq (childrenIn descendants next))
      end
  end.

Definition _hasSufficientEndorsements (x : Event) (descendants : Descendants)
    (electorSet : list string) (supermajority : nat) : outcome bool :=
  endorsementsLoop budget descendants electorSet supermajority
    [_getCreator x] 1 [x].

Definition visitAncestor (acc : gset string * list Event) (event : Event)
  : gset string * list Event :=
  let '(map, next) := acc in
  if bool_decide (eventHash event ∈ map) then acc
  else ({[eventHash event]} ∪ map, next ++ _parents h event).

Fixpoint ancestryLoop (n : nat) (map : gset string) (next : list Event)
  : outcome (gset string) :=
  match next with
  | [] => Ret map
  | _ :: _ =>
      match n with
      | 0 => Timeout
      | S n' =>
          let '(map', next') := foldl visitAncestor (map, []) next in
          ancestryLoop n' map' (uniq next')
      end
  end.

Definition _buildAncestryMap (event : Event) : outcome (gset string) :=
  ancestryLoop budget ∅ [event].

(** ** _findDiversePedigreeMergeEvent *)

Definition onlyTreeChild (lk : Links) (e : Event) : option Event :=
  match _treeChildren lk !! eventHash e with
  | Some [c] => Some c
  | _ => None
  end.

Fixpoint pedigreeLoop (n : nat) (lk : Links) (electorSet : list string)
    (supermajority : nat) (x : Event) (ancestryMap : gset string)
    (treeDescendant : Event) (descendants : Descendants)
  : outcome (option Event * Descendants) :=
  match n with
  | 0 => Timeout
  | S n' =>
      descendants' ←
        _findDescendantsInPath treeDescendant descendants ancestryMap;
      enough ← _hasSufficientEndorsements x descendants' electorSet
                 supermajority;
      if (enough : bool) then Ret (Some treeDescendant, descendants')
      else
        match onlyTreeChild lk treeDescendant with
        | None => Ret (None, descendants')
        | Some next =>
            pedigreeLoop n' lk electorSet supermajority x ancestryMap next
              descendants'
        end
  end.

Definition _findDiversePedigreeMergeEvent (lk : Links) (x : Event)
    (electors : list string) (supermajority : nat)
    (descendants : Descendants) (ancestryMap : gset string)
  : outcome (option Event * Descendants) :=
  if bool_decide (supermajority = 1) then Ret (Some x, descendants)
  else
    match onlyTreeChild lk x with
    | None => Ret (None, descendants)
    | Some treeDescendant =>
        pedigreeLoop budget lk electors supermajority x ancestryMap
          treeDescendant descendants
    end.

End Graph.

(** ** Candidate X and Y merge events *)

Record Candidates := mkCandidates {
  yByElector : list (string * Event);
  xByElector : list (string * Event);
  _initDescendants : gmap string Descendants;
  _xDescendants : gmap string Descendants
}.

Section Candidates.
Context (budget : nat) (h : History) (lk : Links).

(** One iteration of [for(const elector of electorsWithTails)]. *)
Definition selectX (tails : list (string * list Event))
    (acc : list (string * Event) * gmap string Descendants)
    (elector : string) : list (string * Event) * gmap string Descendants :=
  let '(xByElector, initDescendants) := acc in
  match oget elector tails with
  | Some [result] =>
      (oset elector result xByElector,
       <[eventHash result := {[eventHash result := []]}]> initDescendants)
  | _ => acc
  end.

Definition selectXs (tails : list (string * list Event))
  : list (string * Event) * gmap string Descendants :=
  foldl (selectX tails) ([], ∅) (okeys tails).

(** [for(const elector in xByElector)]: the search for each Y. *)
Fixpoint selectYs (electors : list string) (supermajority : nat)
    (initDescendants : gmap string Descendants)
    (xs : list (string * Event))
    (acc : list (string * Event) * gmap string Descendants)
  : outcome (list (string * Event) * gmap string Descendants) :=
  match xs with
  | [] => Ret acc
  | (elector, x) :: rest =>
      ancestryMap ←
        match initDescendants !! eventHash x with
        | Some initial => Ret (dom initial)
        | None => _buildAncestryMap budget h x
        end;
      '(result, descendants) ←
        _findDiversePedigreeMergeEvent budget h lk x electors supermajority
          ∅ ancestryMap;
      selectYs electors supermajority initDescendants rest
        match result with
        | Some y => (oset elector y acc.1, <[eventHash y := descendants]> acc.2)
        | None => acc
        end
  end.

Definition _findMergeEventProofCandidates
    (tails : list (string * list Event)) (electors : list string)
  : outcome (option Candidates) :=
  let supermajority := twoThirdsMajority (length electors) in
  let electorsWithTails := okeys tails in
  if bool_decide (length electorsWithTails < supermajority) then Ret None
  else
    let '(xByElector, initDescendants) := selectXs tails in
    if bool_decide (length (okeys xByElector) < supermajority) then Ret None
    else
      '(yByElector, xDescendants) ←
        selectYs electors supermajority initDescendants xByElector ([], ∅);
      Ret (Some (mkCandidates yByElector xByElector initDescendants
                   xDescendants)).
End Candidates.

(** ** The support / precommit protocol *)

(** An entry of an event's [_votes]: a voting event or the sentinel [false]
    that marks a byzantine elector. *)
Inductive Vote :=
| VEvent (e : Event)
| VFalse.

(** The properties the protocol attaches to events.  [_yDescendants] is a
    reference: an event inherits its tree parent's object, so the objects
    themselves are kept in [yDescendantsHeap] under the hash of the event
    that allocated them.  [event._toConfirm = false] removes the entry, the
    property is only ever tested for truthiness. *)
Record Tally := mkTally {
  _y : gmap string Event;
  _supporting : gmap string (list Event);
  _votes : gmap string (list (string * Vote));
  _yDescendants : gmap string string;
  yDescendantsHeap : gmap string (gmap string Descendants);
  _preCommit : gmap string Event;
  _confirmPoint : gmap string Event;
  _toConfirm : gmap string Event
}.

Definition noTally : Tally := mkTally ∅ ∅ ∅ ∅ ∅ ∅ ∅ ∅.

Definition with_y (f : gmap string Event → gmap string Event) (t : Tally) :=
  mkTally (f (_y t)) (_supporting t) (_votes t) (_yDescendants t)
    (yDescendantsHeap t) (_preCommit t) (_confirmPoint t) (_toConfirm t).
Definition with_supporting
    (f : gmap string (list Event) → gmap string (list Event)) (t : Tally) :=
  mkTally (_y t) (f (_supporting t)) (_votes t) (_yDescendants t)
    (yDescendantsHeap t) (_preCommit t) (_confirmPoint t) (_toConfirm t).
Definition with_votes
    (f : gmap string (list (string * Vote)) → gmap string (list (string * Vote)))
    (t : Tally) :=
  mkTally (_y t) (_supporting t) (f (_votes t)) (_yDescendants t)
    (yDescendantsHeap t) (_preCommit t) (_confirmPoint t) (_toConfirm t).
Definition with_yDescendants (f : gmap string string → gmap string string)
    (t : Tally) :=
  mkTally (_y t) (_supporting t) (_votes t) (f (_yDescendants t))
    (yDescendantsHeap t) (_preCommit t) (_confirmPoint t) (_toConfirm t).
Definition with_heap
    (f : gmap string (gmap string Descendants) →
         gmap string (gmap string Descendants)) (t : Tally) :=
  mkTally (_y t) (_supporting t) (_votes t) (_yDescendants t)
    (f (yDescendantsHeap t)) (_preCommit t) (_confirmPoint t) (_toConfirm t).
Definition with_preCommit (f : gmap string Event → gmap string Event)
    (t : Tally) :=
  mkTally (_y t) (_supporting t) (_votes t) (_yDescendants t)
    (yDescendantsHeap t) (f (_preCommit t)) (_confirmPoint t) (_toConfirm t).
Definition with_confirmPoint (f : gmap string Event → gmap string Event)
    (t : Tally) :=
  mkTally (_y t) (_supporting t) (_votes t) (_yDescendants t)
    (yDescendantsHeap t) (_preCommit t) (f (_confirmPoint t)) (_toConfirm t).
Definition with_toConfirm (f : gmap string Event → gmap string Event)
    (t : Tally) :=
  mkTally (_y t) (_supporting t) (_votes t) (_yDescendants t)
    (yDescendantsHeap t) (_preCommit t) (_confirmPoint t) (f (_toConfirm t)).

(** [a >= b] and [a > b] on [_generation] values, which may be [undefined]. *)
Definition genGe (a b : option nat) : bool :=
  match a, b with
  | Some a, Some b => bool_decide (b ≤ a)
  | _, _ => false
  end.
Definition genGt (a b : option nat) : bool :=
  match a, b with
  | Some a, Some b => bool_decide (b < a)
  | _, _ => false
  end.

Definition _useMostRecentVotingEvent (gen : gmap string nat) (elector : string)
    (votes : list (string * Vote)) (votingEvent : Event)
  : list (string * Vote) :=
  match oget elector votes with
  | Some existing =>
      match existing with
      | VFalse => votes
      | VEvent existing =>
          if genGt (gen !! eventHash votingEvent) (gen !! eventHash existing)
          then oset elector (VEvent votingEvent) votes
          else if bool_decide (gen !! eventHash votingEvent
                               = gen !! eventHash existing)
                  && bool_decide (eventHash votingEvent ≠ eventHash existing)
          then oset elector VFalse votes
          else votes
      end
  | None => oset elector (VEvent votingEvent) votes
  end.

(** [a.length === b.length && _.difference(a, b).length === 0] on the hashes
    of two support sets; the reference comparison in front of it in the
    source is implied by it. *)
Definition sameSet (set1 set2 : list Event) : bool :=
  bool_decide (length set1 = length set2)
  && forallb (λ r, includes r set2) set1.

Definition _compareSupportSet (set1 set2 : list Event) : bool :=
  sameSet set1 set2.

Record TallyResult := mkTallyResult {
  set : list Event;
  count : nat
}.

Definition _findSetInTally (set0 : option (list Event))
    (tallyResult : TallyResult) : bool :=
  match set0 with
  | None => false
  | Some set0 => sameSet set0 (set tallyResult)
  end.

(** [_.find] on the tally, returning the position of the entry found: two
    results of [_.find] are the same object exactly when the positions are
    equal. *)
Fixpoint findIndex {A} (f : A → bool) (l : list A) : option nat :=
  match l with
  | [] => None
  | x :: l' => if f x then Some 0 else S <$> findIndex f l'
  end.

Record Choice := mkChoice {
  choiceIndex : option nat;   (* position in the tally, if found there *)
  choiceSet : list Event;
  choiceCount : nat
}.

Definition findChoice (tally : list TallyResult) (set0 : option (list Event))
  : option Choice :=
  i ← findIndex (_findSetInTally set0) tally;
  r ← tally !! i;
  Some (mkChoice (Some i) (set r) (count r)).

(** One iteration of the [forEach] that builds the tally; a vote whose
    support is already tallied is re-pointed at the tallied set. *)
Definition countVote (acc : list TallyResult * gmap string (list Event))
    (v : Vote) : list TallyResult * gmap string (list Event) :=
  let '(tally, supporting) := acc in
  match v with
  | VFalse => acc
  | VEvent e =>
      match supporting !! eventHash e with
      | None => acc
      | Some s =>
          match findChoice tally (Some s) with
          | Some (mkChoice (Some i) tset tcount) =>
              (<[i := mkTallyResult tset (S tcount)]> tally,
               <[eventHash e := tset]> supporting)
          | _ => (tally ++ [mkTallyResult s 1], supporting)
          end
      end
  end.

(** [_.values(votes).filter(r => r)]. *)
Definition truthy (votes : list (string * Vote)) : list Event :=
  omap (λ v, match v with VEvent e => Some e | VFalse => None end)
       (ovalues votes).

Fixpoint unionPreCommit (t : Tally) (rs : list Event)
    (union : option (list Event)) : outcome (option (list Event)) :=
  match rs with
  | [] => Ret union
  | r :: rest =>
      match _preCommit t !! eventHash r with
      | Some p =>
          supporting ← deref (_supporting t !! eventHash p);
          u ← deref union;
          unionPreCommit t rest
            (Some (if bool_decide (length u < length supporting)
                   then supporting else u))
      | None => unionPreCommit t rest union
      end
  end.

Definition _findUnionPreCommitSet (t : Tally) (votes : list (string * Vote))
    (existingPrecommit : Event) : outcome (option (list Event)) :=
  unionPreCommit t (truthy votes) (_supporting t !! eventHash existingPrecommit).

Section Protocol.
Context (budget : nat) (h : History) (lk : Links) (c : Candidates)
  (electors : list string).

(** The precommit branch of [_tally]: [inl r] is [return r], [inr] carries
    the surviving precommit and the updated properties. *)
Definition checkPreCommit (t : Tally) (event : Event)
    (existingPreCommit : option Event) (nextSet : list Event)
    (hasSupermajority : bool)
  : outcome (option (list Event) + option Event * Tally) :=
  match existingPreCommit with
  | Some pc =>
      pcSupporting ← deref (_supporting t !! eventHash pc);
      if negb (_compareSupportSet pcSupporting nextSet) then
        Ret (inr (None,
                  match _confirmPoint t !! eventHash pc with
                  | Some cp => with_toConfirm (delete (eventHash cp)) t
                  | None => t
                  end))
      else
        match _toConfirm t !! eventHash event with
        | Some toConfirm =>
            if hasSupermajority
            then Ret (inl (_supporting t !! eventHash toConfirm))
            else Ret (inr (None, t))
        | None => Ret (inr (Some pc, t))
        end
  | None => Ret (inr (None, t))
  end.

(** The choice [_tally] makes from the tally of the votes seen. *)
Definition chooseNext (t : Tally) (votes : list (string * Vote))
    (tally : list TallyResult) (existingPreCommit : option Event)
  : outcome Choice :=
  fromPreCommit ←
    match existingPreCommit with
    | Some pc =>
        union ← _findUnionPreCommitSet t votes pc;
        Ret (findChoice tally union)
    | None => Ret None
    end;
  match fromPreCommit with
  | Some nextChoice => Ret nextChoice
  | None =>
      ys ← deref (mapM (λ r, _y t !! eventHash r) (truthy votes));
      let union := uniq ys in
      Ret (default (mkChoice None union 0) (findChoice tally (Some union)))
  end.

(** The tally of the votes seen by an event: the first loop of [_tally]. *)
Definition tallyVotes (t : Tally) (votes : list (string * Vote))
  : list TallyResult * Tally :=
  let '(tally, supporting) :=
    foldl countVote ([], _supporting t) (ovalues votes) in
  (tally, with_supporting (λ _, supporting) t).

(** [event._treeParent._preCommit], if there is a tree parent. *)
Definition existingPreCommitOf (t : Tally) (event : Event) : option Event :=
  tp ← _treeParent lk !! eventHash event; _preCommit t !! eventHash tp.

Definition previousChoiceOf (t : Tally) (votes : list (string * Vote))
    (tally : list TallyResult) (event : Event) : option nat :=
  match oget (_getCreator event) votes with
  | Some (VEvent e) =>
      findIndex (_findSetInTally (_supporting t !! eventHash e)) tally
  | _ => None
  end.

(** [nextChoice.count] after [if(previousChoice !== nextChoice)
    nextChoice.count++]. *)
Definition nextCount (previousChoice : option nat) (nextChoice : Choice)
  : nat :=
  match previousChoice, choiceIndex nextChoice with
  | Some i, Some j =>
      if bool_decide (i = j) then choiceCount nextChoice
      else S (choiceCount nextChoice)
  | _, _ => S (choiceCount nextChoice)
  end.

(** The creation of a precommit at [event], with its confirm point. *)
Definition createPreCommit (t : Tally) (event : Event) (supermajority : nat)
  : outcome Tally :=
  ancestryMap ← _buildAncestryMap budget h event;
  '(confirmPoint, _) ←
    _findDiversePedigreeMergeEvent budget h lk event electors supermajority
      ∅ ancestryMap;
  Ret match confirmPoint with
      | Some cp =>
          with_toConfirm (<[eventHash cp := event]>)
            (with_confirmPoint (<[eventHash event := cp]>) t)
      | None => t
      end.

Definition _tally (t : Tally) (event : Event)
  : outcome (option (list Event) * Tally) :=
  votes ← deref (_votes t !! eventHash event);
  let '(tally, t) := tallyVotes t votes in
  let creator := _getCreator event in
  let existingPreCommit := existingPreCommitOf t event in
  nextChoice ← chooseNext t votes tally existingPreCommit;
  let previousChoice := previousChoiceOf t votes tally event in
  let supermajority := twoThirdsMajority (length electors) in
  let hasSupermajority :=
    bool_decide (supermajority ≤ nextCount previousChoice nextChoice) in
  checked ← checkPreCommit t event existingPreCommit (choiceSet nextChoice)
              hasSupermajority;
  match checked with
  | inl result => Ret (result, t)
  | inr (existingPreCommit, t) =>
      '(existingPreCommit, t) ←
        match existingPreCommit with
        | None =>
            if hasSupermajority then
              t ← createPreCommit t event supermajority;
              Ret (Some event, t)
            else Ret (None, t)
        | Some pc => Ret (Some pc, t)
        end;
      let t :=
        match existingPreCommit with
        | Some pc => with_preCommit (<[eventHash event := pc]>) t
        | None => t
        end in
      let t := with_supporting (<[eventHash event := choiceSet nextChoice]>) t in
      let t :=
        with_votes (<[eventHash event := oset creator (VEvent event) votes]>) t in
      Ret (None, t)
  end.

(** [_updateToMostRecentVotes]; [electorSet] is the key set of
    [yByElector], so [electorSet.has(creator)] is the lookup succeeding. *)
Definition updateVote (descendants : Descendants)
    (acc : list (string * Vote) * list Event) (event : Event)
  : list (string * Vote) * list Event :=
  let '(votes, next) := acc in
  match descendants !! eventHash event with
  | Some d =>
      let creator := _getCreator event in
      (match oget creator (yByElector c) with
       | Some yc =>
           if genGe (_generation lk !! eventHash event)
                    (_generation lk !! eventHash yc)
           then _useMostRecentVotingEvent (_generation lk) creator votes event
           else votes
       | None => votes
       end,
       next ++ d)
  | None => acc
  end.

Fixpoint votesLoop (n : nat) (descendants : Descendants)
    (votes : list (string * Vote)) (next : list Event)
  : outcome (list (string * Vote)) :=
  match next with
  | [] => Ret votes
  | _ :: _ =>
      match n with
      | 0 => Timeout
      | S n' =>
          let '(votes', next') :=
            foldl (updateVote descendants) (votes, []) next in
          votesLoop n' descendants votes' (uniq next')
      end
  end.

Definition _updateToMostRecentVotes (y : Event) (descendants : Descendants)
    (votes : list (string * Vote)) : outcome (list (string * Vote)) :=
  votesLoop budget descendants votes [y].

(** [for(const elector of electorSet)] in [_tallyBranches]: extend the shared
    descendants of every Y up to [event] and fold them into [event._votes]. *)
Fixpoint collectVotes (event : Event) (ref : string)
    (electorSet : list string) (t : Tally) : outcome Tally :=
  match electorSet with
  | [] => Ret t
  | elector :: rest =>
      y ← deref (oget elector (yByElector c));
      obj ← deref (yDescendantsHeap t !! ref);
      descendants ← deref (obj !! elector);
      ancestryMap ← deref (_xDescendants c !! eventHash y);
      descendants' ←
        _findDescendantsInPath budget h event descendants (dom ancestryMap);
      votes ← deref (_votes t !! eventHash event);
      votes' ← _updateToMostRecentVotes y descendants' votes;
      collectVotes event ref rest
        (with_votes (<[eventHash event := votes']>)
           (with_heap (<[ref := <[elector := descendants']> obj]>) t))
  end.

Definition outstanding (t : Tally) (event : Event)
    (votes : list (string * Vote)) : bool :=
  existsb (λ e, bool_decide (eventHash e ≠ eventHash event)
                && bool_decide (_supporting t !! eventHash e = None))
          (truthy votes).

(** The block guarded by [if(!event._supporting)]: inherit the tree parent's
    votes and descendants object, collect the votes seen by [event], and
    report whether some vote other than its own is still without support. *)
Definition gatherVotes (t : Tally) (event treeParent : Event)
  : outcome (bool * Tally) :=
  let electorSet := okeys (yByElector c) in
  let t :=
    match _votes t !! eventHash event with
    | Some _ => t
    | None =>
        with_votes
          (<[eventHash event :=
               default [] (_votes t !! eventHash treeParent)]>) t
    end in
  let '(ref, t) :=
    match _yDescendants t !! eventHash event with
    | Some ref => (ref, t)
    | None =>
        match _yDescendants t !! eventHash treeParent with
        | Some ref => (ref, with_yDescendants (<[eventHash event := ref]>) t)
        | None =>
            (eventHash event,
             with_yDescendants (<[eventHash event := eventHash event]>)
               (with_heap
                  (<[eventHash event :=
                       list_to_map ((λ e, (e, ∅)) <$> electorSet)]>) t))
        end
    end in
  t ← collectVotes event ref electorSet t;
  votes ← deref (_votes t !! eventHash event);
  Ret (outstanding t event votes, t).

(** The body of [for(let event of current)]: the result of [_tally] if one
    was produced, the events pushed onto [next], and the properties. *)
Definition tallyEvent (t : Tally) (event : Event)
  : outcome (option (list Event) * list Event * Tally) :=
  treeParent ← deref (_treeParent lk !! eventHash event);
  let t :=
    match _y t !! eventHash treeParent with
    | Some y => with_y (<[eventHash event := y]>) t
    | None => t
    end in
  '(wait, t) ←
    match _supporting t !! eventHash event with
    | Some _ => Ret (false, t)
    | None => gatherVotes t event treeParent
    end;
  if (wait : bool) then Ret (None, [event], t)
  else
    '(result, t) ← _tally t event;
    match result with
    | Some r => Ret (Some r, [], t)
    | None => Ret (None, treeChildrenOf (_treeChildren lk) event, t)
    end.

Fixpoint tallyLevel (current next : list Event) (t : Tally)
  : outcome (option (list Event) * list Event * Tally) :=
  match current with
  | [] => Ret (None, next, t)
  | event :: rest =>
      '(result, pushed, t) ← tallyEvent t event;
      match result with
      | Some r => Ret (Some r, next, t)
      | None => tallyLevel rest (next ++ pushed) t
      end
  end.

Fixpoint tallyLoop (n : nat) (next : list Event) (t : Tally)
  : outcome (option (list Event) * Tally) :=
  match next with
  | [] => Ret (None, t)
  | _ :: _ =>
      match n with
      | 0 => Timeout
      | S n' =>
          '(result, next', t) ← tallyLevel next [] t;
          match result with
          | Some r => Ret (Some r, t)
          | None => tallyLoop n' next' t
          end
      end
  end.

Definition _tallyBranches (t : Tally) : outcome (option (list Event) * Tally) :=
  tallyLoop budget (ovalues (yByElector c)) t.

End Protocol.

(** ** _findConsensusMergeEventProof *)

Section ConsensusProof.
Context (budget : nat) (h : History) (lk : Links).

(** [difference.splice(difference.indexOf(parent), 1)]; an index of [-1]
    removes the last element. *)
Fixpoint spliceOut (parent : Event) (difference : list Event) : list Event :=
  match difference with
  | [] => []
  | x :: rest =>
      if bool_decide (eventHash x = eventHash parent) then rest
      else x :: spliceOut parent rest
  end.

Definition splice (parent : Event) (difference : list Event) : list Event :=
  if includes parent difference then spliceOut parent difference
  else removelast difference.

(** One iteration of [for(const parent of current)] in [_hasAncestors]; the
    boolean records that [return true] was reached.  Every candidate has an
    entry in [candidateAncestryMaps]. *)
Definition checkParent (candidateSet : list Event) (min : nat)
    (candidateAncestryMaps : gmap string (gset string))
    (acc : list Event * list Event * gset string * list Event * bool)
    (parent : Event)
  : list Event * list Event * gset string * list Event * bool :=
  let '(found, difference, checked, next, done) := acc in
  if done then acc
  else if bool_decide (eventHash parent ∈ checked) then acc
  else
    let checked := {[eventHash parent]} ∪ checked in
    let fresh := includes parent candidateSet && negb (includes parent found) in
    let found := if fresh then found ++ [parent] else found in
    if fresh && bool_decide (min ≤ length found)
    then (found, difference, checked, next, true)
    else
      let difference := if fresh then splice parent difference else difference in
      let viable :=
        existsb (λ c, bool_decide
                        (eventHash parent ∉
                           default ∅ (candidateAncestryMaps !! eventHash c)))
                difference in
      (found, difference, checked,
       if viable then next ++ _parents h parent else next, false).

Fixpoint hasAncestorsLoop (n : nat) (candidateSet : list Event) (min : nat)
    (candidateAncestryMaps : gmap string (gset string))
    (found difference : list Event) (checked : gset string)
    (next : list Event) : outcome (list Event) :=
  match next with
  | [] => Ret found
  | _ :: _ =>
      match n with
      | 0 => Timeout
      | S n' =>
          let '(found', difference', checked', next', done) :=
            foldl (checkParent candidateSet min candidateAncestryMaps)
                  (found, difference, checked, [], false) next in
          if done then Ret found'
          else hasAncestorsLoop n' candidateSet min candidateAncestryMaps
                 found' difference' checked' (uniq next')
      end
  end.

(** [_hasAncestors] mutates [found]; its boolean result is not used by its
    only caller, so the model returns [found]. *)
Definition _hasAncestors (target : Event) (candidates : list Event)
    (candidateAncestryMaps : gmap string (gset string)) (found : list Event)
  : outcome (list Event) :=
  let candidateSet := uniq candidates in
  let min := length candidates in
  let difference := filter (λ x, includes x found = false) candidateSet in
  hasAncestorsLoop budget candidateSet min candidateAncestryMaps found
    difference ∅ (_parents h target).

Definition _allEndorsedYs (event : Event) (allYs : list Event)
    (yAncestryMaps : gmap string (gset string)) : outcome (list Event) :=
  _hasAncestors event allYs yAncestryMaps [].

Fixpoint _buildAncestryMaps (events : list Event)
    (ancestryMaps : gmap string (gset string))
  : outcome (gmap string (gset string)) :=
  match events with
  | [] => Ret ancestryMaps
  | e :: rest =>
      map ← _buildAncestryMap budget h e;
      _buildAncestryMaps rest (<[eventHash e := map]> ancestryMaps)
  end.

(** The loop that adds the keys of [y._xDescendants] and of
    [x._initDescendants] to the ancestry map of every Y; the map of a Y was
    built just before. *)
Fixpoint extendAncestryMaps (c : Candidates) (ys : list Event)
    (yAncestryMaps : gmap string (gset string))
  : outcome (gmap string (gset string)) :=
  match ys with
  | [] => Ret yAncestryMaps
  | y :: rest =>
      map ← deref (yAncestryMaps !! eventHash y);
      let map := map ∪ dom (default ∅ (_xDescendants c !! eventHash y)) in
      x ← deref (oget (_getCreator y) (xByElector c));
      let initDescendants := default ∅ (_initDescendants c !! eventHash x) in
      extendAncestryMaps c rest
        (<[eventHash y := map ∪ dom initDescendants]> yAncestryMaps)
  end.

(** [allYs.forEach(y => ...)]: the initial votes of every Y. *)
Fixpoint initVotes (allYs : list Event)
    (yAncestryMaps : gmap string (gset string)) (ys : list Event) (t : Tally)
  : outcome Tally :=
  match ys with
  | [] => Ret t
  | y :: rest =>
      found ← _allEndorsedYs y allYs yAncestryMaps;
      let supporting := setAddEvent found y in
      let votes :=
        foldl (λ votes supported,
                 oset (_getCreator supported) (VEvent supported) votes)
              [] supporting in
      initVotes allYs yAncestryMaps rest
        (with_votes (<[eventHash y := votes]>)
           (with_y (<[eventHash y := y]>) t))
  end.

Definition _findConsensusMergeEventProof (c : Candidates)
    (electors : list string) : outcome (list Event) :=
  let allYs := ovalues (yByElector c) in
  if bool_decide (length electors = 1) then Ret allYs
  else
    yAncestryMaps ← _buildAncestryMaps allYs ∅;
    yAncestryMaps ← extendAncestryMaps c allYs yAncestryMaps;
    t ← initVotes allYs yAncestryMaps allYs noTally;
    '(consensus, _) ← _tallyBranches budget h lk c electors t;
    Ret (default [] consensus).

(** ** _findMergeEventProof *)

Record Proof := mkProof {
  y : Event;
  x : Event;
  proof : list Event
}.

(** [ys.map(y => ...)]: pair every Y with its X and the endorsements. *)
Fixpoint pairYs (c : Candidates) (supermajority : nat) (ys : list Event)
  : outcome (list Proof) :=
  match ys with
  | [] => Ret []
  | y :: rest =>
      x ← deref (oget (_getCreator y) (xByElector c));
      descendants ← deref (_xDescendants c !! eventHash y);
      proof ← _flattenDescendants budget x descendants;
      let proof :=
        if bool_decide (length proof = 0) && bool_decide (supermajority = 1)
        then [x] else proof in
      pairs ← pairYs c supermajority rest;
      Ret (mkProof y x proof :: pairs)
  end.

Definition _findMergeEventProof (tails : list (string * list Event))
    (electors : list string) : outcome (list Proof) :=
  candidates ← _findMergeEventProofCandidates budget h lk tails electors;
  match candidates with
  | None => Ret []
  | Some candidates =>
      let yCandidatesByElector := yByElector candidates in
      let supermajority := twoThirdsMajority (length electors) in
      if bool_decide (length (okeys yCandidatesByElector) < supermajority)
      then Ret []
      else
        ys ← _findConsensusMergeEventProof candidates electors;
        if bool_decide (length ys = 0) then Ret []
        else pairYs candidates supermajority ys
  end.

(** ** _getAncestorHashes *)

Definition visitCommitted
    (acc : list string * gset string * list Event) (event : Event)
  : list string * gset string * list Event :=
  let '(hashes, descendants, next) := acc in
  if bool_decide (eventHash event ∈ descendants) then acc
  else
    (foldl setAdd (setAdd hashes (eventHash event)) (parentHash event),
     {[eventHash event]} ∪ descendants,
     next ++ _parents h event).

Fixpoint committedLoop (n : nat) (hashes : list string)
    (descendants : gset string) (next : list Event)
  : outcome (list string * gset string) :=
  match next with
  | [] => Ret (hashes, descendants)
  | _ :: _ =>
      match n with
      | 0 => Timeout
      | S n' =>
          let '(hashes', descendants', next') :=
            foldl visitCommitted (hashes, descendants, []) next in
          committedLoop n' hashes' descendants' next'
      end
  end.

Fixpoint committedFrom (allXs : list Event) (hashes : list string)
    (descendants : gset string) : outcome (list string) :=
  match allXs with
  | [] => Ret hashes
  | x :: rest =>
      '(hashes', descendants') ← committedLoop budget hashes descendants [x];
      committedFrom rest hashes' descendants'
  end.

Definition _getAncestorHashes (allXs : list Event) : outcome (list string) :=
  committedFrom allXs [] ∅.

End ConsensusProof.

(** ** findConsensus *)

Record Decision := mkDecision {
  eventHashes : list string;
  consensusProofHashes : list string
}.

(** [ledgerNode] and [blockHeight] only reach the logger. *)
Definition findConsensus (budget : nat) (h : History) (blockHeight : nat)
    (electors : list string) : outcome (option Decision) :=
  '(tails, lk) ← _getElectorBranches budget h electors;
  consensus ← _findMergeEventProof budget h lk tails electors;
  if bool_decide (length consensus = 0) then Ret None
  else
    let allXs := x <$> consensus in
    let consensusProofHashes :=
      uniqStr (flat_map (λ current, eventHash <$> proof current) consensus) in
    eventHashes ← _getAncestorHashes budget h allXs;
    Ret (Some (mkDecision eventHashes consensusProofHashes)).

(** * Specification-level notions *)

(** [a] is an ancestor of [e], or [e] itself: [a] is reached from [e] through
    [_parents] links. *)
Definition ancestor (h : History) (a e : Event) : Prop :=
  rtc (λ e p, p ∈ _parents h e) e a.


(** The object a hash resolves to. *)
Definition canonical (h : History) (e : Event) : Prop :=
  eventMap h (eventHash e) = Some e.


(** What [_getElectorBranches] establishes about tails and tree links. *)
Record linked (h : History) (tails : list (string * list Event))
    (lk : Links) : Prop := {
  linked_keys : NoDup (okeys tails);
  linked_tails : ∀ k ts t,
    oget k tails = Some ts → t ∈ ts →
    t ∈ h ∧ creator t = k ∧ findTreeParent h t = None;
  linked_children : ∀ k cs c,
    _treeChildren lk !! k = Some cs → c ∈ cs →
    c ∈ h ∧ ∃ p, findTreeParent h c = Some p ∧ eventHash p = k
}.

(** [e] is [i] tree links away from the start of its branch. *)
Fixpoint branchDepth (h : History) (i : nat) (e : Event) : Prop :=
  match i with
  | 0 => findTreeParent h e = None
  | S i => ∃ p, findTreeParent h e = Some p ∧ branchDepth h i p
  end.

(** Event hashes identify the events of the snapshot. *)
Definition uniqueHashes (h : History) : Prop := NoDup (eventHash <$> h).

(** [treeHash] names an event of the same creator. *)
Definition ownBranches (h : History) : Prop :=
  Forall (λ e, Forall (λ p, treeHash e = Some (eventHash p) →
                            creator p = creator e) (_parents h e)) h.

(** A descendants map filled on the way to [y]: every entry lists events of
    the snapshot that are children of the keyed event and ancestors of [y]
    (or [y] itself). *)
Definition pathMap (h : History) (y : Event) (descendants : Descendants)
  : Prop :=
  ∀ k d e, descendants !! k = Some d → e ∈ d →
    canonical h e ∧ ancestor h e y
    ∧ ∃ p, p ∈ _parents h e ∧ eventHash p = k.

(** The queue of a backwards search from [y]. *)
Definition upTo (h : History) (y : Event) (l : list Event) : Prop :=
  ∀ e, e ∈ l → canonical h e ∧ ancestor h e y.

(** The events [_flattenDescendants] walks: between [x] and [y]. *)
Definition between (h : History) (x y : Event) (l : list Event) : Prop :=
  ∀ e, e ∈ l → canonical h e ∧ ancestor h x e ∧ ancestor h e y.

(** [y] is a candidate found from [x], with its [_xDescendants]. *)
Definition candidateY (h : History) (x y : Event) (descendants : Descendants)
  : Prop :=
  canonical h y ∧ ancestor h x y ∧ creator y = creator x
  ∧ pathMap h y descendants.

(** The Y candidates found so far, each with the X it was found from. *)
Definition candidateYs (h : History) (xs : list (string * Event))
    (acc : list (string * Event) * gmap string Descendants) : Prop :=
  ∀ elector y, oget elector acc.1 = Some y →
    creator y = elector
    ∧ ∃ x descendants,
        (elector, x) ∈ xs ∧ acc.2 !! eventHash y = Some descendants
        ∧ candidateY h x y descendants.

(** All [_y] and [_supporting] values are drawn from the Y candidates. *)
Definition supportsYs (allYs : list Event) (t : Tally) : Prop :=
  (∀ k y, _y t !! k = Some y → y ∈ allYs)
  ∧ (∀ k ys y, _supporting t !! k = Some ys → y ∈ ys → y ∈ allYs).


(** ** Scenarios *)

Local Open Scope string_scope.

(** S1: a single elector [A] with the merge events [a1] (tail), [a2], [a3]. *)
Definition s1_a1 : Event := mkEvent "a1" "A" None [] [].
Definition s1_a2 : Event := mkEvent "a2" "A" (Some "a1") ["a1"] ["a1"].
Definition s1_a3 : Event := mkEvent "a3" "A" (Some "a2") ["a2"] ["a2"].
Definition s1_history : History := [s1_a1; s1_a2; s1_a3].


(** S2: four electors; every merge event of a generation has the four
    events of the generation before as parents. *)
Definition s2_electors : list string := ["a"; "b"; "c"; "d"].
Definition s2_history : History :=
  [ mkEvent "a1" "a" None [] [];
   mkEvent "b1" "b" None [] [];
   mkEvent "c1" "c" None [] [];
   mkEvent "d1" "d" None [] [];
   mkEvent "a2" "a" (Some "a1")
     ["a1"; "b1"; "c1"; "d1"] ["a1"; "b1"; "c1"; "d1"];
   mkEvent "b2" "b" (Some "b1")
     ["b1"; "a1"; "c1"; "d1"] ["b1"; "a1"; "c1"; "d1"];
   mkEvent "c2" "c" (Some "c1")
     ["c1"; "a1"; "b1"; "d1"] ["c1"; "a1"; "b1"; "d1"];
   mkEvent "d2" "d" (Some "d1")
     ["d1"; "a1"; "b1"; "c1"] ["d1"; "a1"; "b1"; "c1"];
   mkEvent "a3" "a" (Some "a2")
     ["a2"; "b2"; "c2"; "d2"] ["a2"; "b2"; "c2"; "d2"];
   mkEvent "b3" "b" (Some "b2")
     ["b2"; "a2"; "c2"; "d2"] ["b2"; "a2"; "c2"; "d2"];
   mkEvent "c3" "c" (Some "c2")
     ["c2"; "a2"; "b2"; "d2"] ["c2"; "a2"; "b2"; "d2"];
   mkEvent "d3" "d" (Some "d2")
     ["d2"; "a2"; "b2"; "c2"] ["d2"; "a2"; "b2"; "c2"];
   mkEvent "a4" "a" (Some "a3")
     ["a3"; "b3"; "c3"; "d3"] ["a3"; "b3"; "c3"; "d3"];
   mkEvent "b4" "b" (Some "b3")
     ["b3"; "a3"; "c3"; "d3"] ["b3"; "a3"; "c3"; "d3"];
   mkEvent "c4" "c" (Some "c3")
     ["c3"; "a3"; "b3"; "d3"] ["c3"; "a3"; "b3"; "d3"];
   mkEvent "d4" "d" (Some "d3")
     ["d3"; "a3"; "b3"; "c3"] ["d3"; "a3"; "b3"; "c3"];
   mkEvent "a5" "a" (Some "a4")
     ["a4"; "b4"; "c4"; "d4"] ["a4"; "b4"; "c4"; "d4"];
   mkEvent "b5" "b" (Some "b4")
     ["b4"; "a4"; "c4"; "d4"] ["b4"; "a4"; "c4"; "d4"];
   mkEvent "c5" "c" (Some "c4")
     ["c4"; "a4"; "b4"; "d4"] ["c4"; "a4"; "b4"; "d4"];
   mkEvent "d5" "d" (Some "d4")
     ["d4"; "a4"; "b4"; "c4"] ["d4"; "a4"; "b4"; "c4"];
   mkEvent "a6" "a" (Some "a5")
     ["a5"; "b5"; "c5"; "d5"] ["a5"; "b5"; "c5"; "d5"];
   mkEvent "b6" "b" (Some "b5")
     ["b5"; "a5"; "c5"; "d5"] ["b5"; "a5"; "c5"; "d5"];
   mkEvent "c6" "c" (Some "c5")
     ["c5"; "a5"; "b5"; "d5"] ["c5"; "a5"; "b5"; "d5"];
   mkEvent "d6" "d" (Some "d5")
     ["d5"; "a5"; "b5"; "c5"] ["d5"; "a5"; "b5"; "c5"];
   mkEvent "a7" "a" (Some "a6")
     ["a6"; "b6"; "c6"; "d6"] ["a6"; "b6"; "c6"; "d6"];
   mkEvent "b7" "b" (Some "b6")
     ["b6"; "a6"; "c6"; "d6"] ["b6"; "a6"; "c6"; "d6"];
   mkEvent "c7" "c" (Some "c6")
     ["c6"; "a6"; "b6"; "d6"] ["c6"; "a6"; "b6"; "d6"];
   mkEvent "d7" "d" (Some "d6")
     ["d6"; "a6"; "b6"; "c6"] ["d6"; "a6"; "b6"; "c6"] ].

(** A fork: elector [A] publishes two tree children [a4] and [a4x] of its
    Y candidate [a3]; [b4] merges [a4x], and [a5] merges [a4] and [b4], so
    [a5] has both forks among its ancestors. *)
Definition fork_a3 : Event := mkEvent "a3" "A" (Some "a2") ["a2"; "b2"] ["a2"; "b2"].
Definition fork_b3 : Event := mkEvent "b3" "B" (Some "b2") ["b2"; "a2"] ["b2"; "a2"].
Definition fork_a4 : Event := mkEvent "a4" "A" (Some "a3") ["a3"; "b3"] ["a3"; "b3"].
Definition fork_a4x : Event := mkEvent "a4x" "A" (Some "a3") ["a3"] ["a3"].
Definition fork_b4 : Event := mkEvent "b4" "B" (Some "b3") ["b3"; "a4x"] ["b3"; "a4x"].
Definition fork_a5 : Event := mkEvent "a5" "A" (Some "a4") ["a4"; "b4"] ["a4"; "b4"].
Definition fork_a6 : Event := mkEvent "a6" "A" (Some "a5") ["a5"] ["a5"].
Definition fork_electors : list string := ["A"; "B"].
Definition fork_history : History :=
  [ mkEvent "a1" "A" None [] []; mkEvent "b1" "B" None [] [];
    mkEvent "a2" "A" (Some "a1") ["a1"; "b1"] ["a1"; "b1"];
    mkEvent "b2" "B" (Some "b1") ["b1"; "a1"] ["b1"; "a1"];
    fork_a3; fork_b3; fork_a4; fork_a4x; fork_b4; fork_a5; fork_a6 ].

(** The protocol on [fork_history], run until the Y candidates and then
    [a4], [a4x] and [b4] have been tallied: the links, the candidates, the
    queue and the properties at that point. *)
Definition fork_run : outcome (Links * Candidates * list Event * Tally) :=
  '(tails, lk) ← _getElectorBranches 20 fork_history fork_electors;
  candidates ←
    _findMergeEventProofCandidates 20 fork_history lk tails fork_electors;
  c ← deref candidates;
  let allYs := ovalues (yByElector c) in
  yAncestryMaps ← _buildAncestryMaps 20 fork_history allYs ∅;
  yAncestryMaps ← extendAncestryMaps c allYs yAncestryMaps;
  t ← initVotes 20 fork_history allYs yAncestryMaps allYs noTally;
  '(_, next, t) ← tallyLevel 20 fork_history lk c fork_electors allYs [] t;
  '(_, next, t) ← tallyLevel 20 fork_history lk c fork_electors next [] t;
  Ret (lk, c, next, t).

Definition fork_lk : Links :=
  match fork_run with Ret (lk, _, _, _) => lk | _ => noLinks end.
Definition fork_candidates : Candidates :=
  match fork_run with
  | Ret (_, c, _, _) => c
  | _ => mkCandidates [] [] ∅ ∅
  end.
Definition fork_before_a5 : Tally :=
  match fork_run with Ret (_, _, _, t) => t | _ => noTally end.

(** [a5] after its votes are collected, and after its tally step. *)
Definition fork_gathered_a5 : Tally :=
  match gatherVotes 20 fork_history fork_lk fork_candidates
          (with_y (<["a5" := fork_a3]>) fork_before_a5) fork_a5 fork_a4 with
  | Ret (_, t) => t
  | _ => noTally
  end.
Definition fork_tallied_a5 : Tally :=
  match _tally 20 fork_history fork_lk fork_electors fork_gathered_a5
          fork_a5 with
  | Ret (_, t) => t
  | _ => noTally
  end.
Definition fork_gathered_a6 : Tally :=
  match gatherVotes 20 fork_history fork_lk fork_candidates
          (with_y (<["a6" := fork_a3]>) fork_tallied_a5) fork_a6 fork_a5 with
  | Ret (_, t) => t
  | _ => noTally
  end.

Local Close Scope string_scope.

(** * Properties *)

(** ** Outcomes *)

Lemma bind_Ret {A B} (m : outcome A) (f : A → outcome B) (b : B) :
  m ≫= f = Ret b ↔ ∃ a, m = Ret a ∧ f a = Ret b.
Proof.
  destruct m as [a| |]; simpl; split.
  - intros Hf. by exists a.
  - by intros (a' & [= <-] & Hf).
  - done.
  - by intros (? & ? & ?).
  - done.
  - by intros (? & ? & ?).
Qed.

Lemma deref_Ret {A} (o : option A) (a : A) : deref o = Ret a ↔ o = Some a.
Proof. destruct o; simpl; split; congruence. Qed.

Lemma Ret_inj {A} (a b : A) : Ret a = Ret b → a = b.
Proof. congruence. Qed.

(** Decompose a hypothesis stating that a sequence of steps returned. *)
Ltac inv_ret H :=
  repeat match type of H with
  | Ret _ = Ret _ => apply Ret_inj in H; simplify_eq
  | Throw = Ret _ => discriminate H
  | Timeout = Ret _ => discriminate H
  | deref _ = Ret _ => apply deref_Ret in H
  | (_ ≫= _) = Ret _ =>
      let a := fresh "r" in
      let Ha := fresh "Hstep" in
      apply bind_Ret in H as (a & Ha & H);
      try apply deref_Ret in Ha
  | mret _ = Ret _ => unfold mret, outcome_ret in H
  end.

(** ** Insertion-ordered objects *)

Lemma oget_oset {V} (k k' : string) (v : V) o :
  oget k' (oset k v o) = if bool_decide (k = k') then Some v else oget k' o.
Proof.
  induction o as [|[k0 v0] o IH]; simpl.
  - by repeat case_bool_decide.
  - repeat (case_bool_decide; simpl); try congruence.
Qed.

Lemma oget_oset_eq {V} (k : string) (v : V) o : oget k (oset k v o) = Some v.
Proof. rewrite oget_oset. by rewrite bool_decide_eq_true_2. Qed.

Lemma oget_oset_ne {V} (k k' : string) (v : V) o :
  k ≠ k' → oget k' (oset k v o) = oget k' o.
Proof. intros. rewrite oget_oset. by rewrite bool_decide_eq_false_2. Qed.

Lemma oget_Some_elem {V} (k : string) (v : V) o :
  oget k o = Some v → (k, v) ∈ o.
Proof.
  induction o as [|[k0 v0] o IH]; simpl; [done|].
  case_bool_decide; intros; simplify_eq; [left | right; auto].
Qed.

Lemma oget_None_keys {V} (k : string) (o : list (string * V)) :
  oget k o = None ↔ k ∉ okeys o.
Proof.
  unfold okeys. induction o as [|[k0 v0] o IH]; simpl.
  - split; [intros _; apply not_elem_of_nil | done].
  - rewrite not_elem_of_cons. case_bool_decide; subst.
    + split; [done | by intros [? _]].
    + rewrite IH. split; [by split | by intros [_ ?]].
Qed.

Lemma okeys_oset {V} (k : string) (v : V) o :
  okeys (oset k v o) = if bool_decide (k ∈ okeys o) then okeys o
                       else okeys o ++ [k].
Proof.
  unfold okeys. induction o as [|[k0 v0] o IH]; [done|].
  cbn [oset]. rewrite fmap_cons. cbn [fst].
  destruct (decide (k0 = k)) as [->|Hne].
  - rewrite !bool_decide_eq_true_2; [done | left | done].
  - rewrite (bool_decide_eq_false_2 (k0 = k)) by done.
    rewrite fmap_cons, IH. cbn [fst].
    destruct (decide (k ∈ o.*1)) as [Hin|Hin].
    + rewrite !bool_decide_eq_true_2; [done | by right | done].
    + rewrite !bool_decide_eq_false_2; [done | | done].
      rewrite not_elem_of_cons. split; [congruence | done].
Qed.

Lemma NoDup_okeys_oset {V} (k : string) (v : V) o :
  NoDup (okeys o) → NoDup (okeys (oset k v o)).
Proof.
  intros Hnd. rewrite okeys_oset. case_bool_decide; [done|].
  apply NoDup_app. split_and!; [done | | apply NoDup_singleton].
  intros x Hx Hx'. apply list_elem_of_singleton in Hx'. by subst.
Qed.

Lemma elem_ovalues_oget {V} (v : V) (o : list (string * V)) :
  NoDup (okeys o) → v ∈ ovalues o → ∃ k, oget k o = Some v.
Proof.
  unfold okeys, ovalues. induction o as [|[k0 v0] o IH]; simpl.
  - intros _ Hin. by apply elem_of_nil in Hin.
  - rewrite NoDup_cons. intros [Hk Hnd] [->|Hin]%elem_of_cons.
    + exists k0. by rewrite bool_decide_eq_true_2.
    + destruct (IH Hnd Hin) as [k Hget]. exists k.
      rewrite bool_decide_eq_false_2; [done|].
      intros ->. apply Hk. apply oget_Some_elem in Hget.
      apply (list_elem_of_fmap_2 fst) in Hget. done.
Qed.

(** ** twoThirdsMajority *)

(** C9: [twoThirdsMajority n] is [n] up to three electors and
    [2 * (n / 3) + 1] beyond, with the listed boundary values. *)
Theorem twoThirdsMajority_spec (n : nat) :
  twoThirdsMajority n = (if decide (n ≤ 3) then n else 2 * (n / 3) + 1)
  ∧ twoThirdsMajority 1 = 1 ∧ twoThirdsMajority 2 = 2
  ∧ twoThirdsMajority 3 = 3 ∧ twoThirdsMajority 4 = 3
  ∧ twoThirdsMajority 7 = 5 ∧ twoThirdsMajority 10 = 7
  ∧ twoThirdsMajority 13 = 9.
Proof.
  split; [|by repeat split].
  unfold twoThirdsMajority. case_bool_decide; case_decide; lia.
Qed.

Lemma twoThirdsMajority_1 (n : nat) : twoThirdsMajority n = 1 ↔ n = 1.
Proof.
  unfold twoThirdsMajority. case_bool_decide; [done|].
  split; [|lia]. intros Heq.
  assert (1 ≤ n / 3) by (apply Nat.div_le_lower_bound; lia). lia.
Qed.

(** ** The empty elector list *)



(** ** Early returns *)



(** ** Selection of X *)

Lemma selectX_other tails acc k elector :
  k ≠ elector → oget elector (selectX tails acc k).1 = oget elector acc.1.
Proof.
  intros Hne. destruct acc as [xs init]. unfold selectX.
  destruct (oget k tails) as [[|t [|? ?]]|]; simpl; try done.
  by apply oget_oset_ne.
Qed.

Lemma selectX_seeded tails acc k :
  (∀ j d, acc.2 !! j = Some d → d = {[j := []]}) →
  ∀ j d, (selectX tails acc k).2 !! j = Some d → d = {[j := []]}.
Proof.
  intros Hacc j d. destruct acc as [xs init]. unfold selectX.
  destruct (oget k tails) as [[|t [|? ?]]|]; simpl; try apply Hacc.
  rewrite lookup_insert. case_decide; [|apply Hacc].
  intros [= <-]. by subst.
Qed.

Lemma selectX_keeps tails acc k j :
  is_Some (acc.2 !! j) → is_Some ((selectX tails acc k).2 !! j).
Proof.
  destruct acc as [xs init]. unfold selectX.
  destruct (oget k tails) as [[|t [|? ?]]|]; simpl; try done.
  intros Hj. rewrite lookup_insert. by case_decide.
Qed.

Lemma selectXs_fold tails keys acc :
  (∀ j d, acc.2 !! j = Some d → d = {[j := []]}) →
  let r := foldl (selectX tails) acc keys in
  (∀ j d, r.2 !! j = Some d → d = {[j := []]})
  ∧ (∀ j, is_Some (acc.2 !! j) → is_Some (r.2 !! j))
  ∧ ∀ elector,
      (elector ∉ keys → oget elector r.1 = oget elector acc.1)
      ∧ (elector ∈ keys →
         match oget elector tails with
         | Some [tail] =>
             oget elector r.1 = Some tail ∧ is_Some (r.2 !! eventHash tail)
         | _ => oget elector r.1 = oget elector acc.1
         end).
Proof.
  intros Hacc. induction keys as [|k keys IH] using rev_ind; simpl.
  { split_and!; try done. intros elector. split; [done|].
    by intros ?%elem_of_nil. }
  rewrite foldl_app. simpl.
  destruct IH as (IHseed & IHkeep & IH).
  set (r := foldl (selectX tails) acc keys) in *.
  split_and!.
  - by apply selectX_seeded.
  - intros j Hj. by apply selectX_keeps, IHkeep.
  - intros elector. destruct (IH elector) as [IHout IHin].
    destruct (decide (k = elector)) as [->|Hne].
    + split; [intros Hout; exfalso; apply Hout, elem_of_app; right; left|].
      intros _. destruct r as [xs init] eqn:Hr. unfold selectX.
      destruct (oget elector tails) as [[|t [|? ?]]|] eqn:Htails; simpl.
      * destruct (decide (elector ∈ keys)) as [Hin|Hout]; auto.
      * split; [apply oget_oset_eq|]. rewrite lookup_insert_eq. eauto.
      * destruct (decide (elector ∈ keys)) as [Hin|Hout]; auto.
      * destruct (decide (elector ∈ keys)) as [Hin|Hout]; auto.
    + rewrite selectX_other by done. split.
      * intros Hout. apply IHout. intros Hin. apply Hout, elem_of_app. by left.
      * intros Hin. assert (elector ∈ keys) as Hin'.
        { apply elem_of_app in Hin as [Hin|Hin]; [done|].
          apply list_elem_of_singleton in Hin. congruence. }
        specialize (IHin Hin').
        destruct (oget elector tails) as [[|t [|? ?]]|]; try done.
        destruct IHin as [-> Hsome]. split; [done|].
        by apply selectX_keeps.
Qed.

Lemma selectXs_tail tails elector :
  match oget elector tails with
  | Some [tail] =>
      oget elector (selectXs tails).1 = Some tail
      ∧ (selectXs tails).2 !! eventHash tail
        = Some {[eventHash tail := []]}
  | _ => oget elector (selectXs tails).1 = None
  end.
Proof.
  unfold selectXs.
  destruct (selectXs_fold tails (okeys tails) ([], ∅)) as (Hseed & _ & Hx).
  { intros j d. simpl. by rewrite lookup_empty. }
  destruct (Hx elector) as [Hout Hin].
  destruct (decide (elector ∈ okeys tails)) as [Hk|Hk].
  - specialize (Hin Hk).
    destruct (oget elector tails) as [[|t [|? ?]]|]; try done.
    destruct Hin as [-> [d Hd]]. split; [done|].
    rewrite Hd. f_equal. by apply Hseed.
  - rewrite (proj2 (oget_None_keys _ _) Hk). by apply Hout.
Qed.

Lemma selectYs_keys budget h lk electors s init xs acc acc' elector :
  selectYs budget h lk electors s init xs acc = Ret acc' →
  elector ∉ okeys xs → oget elector acc'.1 = oget elector acc.1.
Proof.
  revert acc. induction xs as [|[k x] xs IH]; intros acc Hret Hout;
    cbn [selectYs] in Hret.
  - by inv_ret Hret.
  - inv_ret Hret. destruct r0 as [result descendants].
    unfold okeys in Hout. rewrite fmap_cons, not_elem_of_cons in Hout.
    destruct Hout as [Hne Hout]. simpl in Hne.
    rewrite (IH _ Hret Hout). destruct result; [|done].
    simpl. by apply oget_oset_ne.
Qed.

(** X is the single tail of an elector, if it has exactly one. *)
Lemma candidates_select_tails (budget : nat) (h : History) (lk : Links)
    (tails : list (string * list Event)) (electors : list string)
    (c : Candidates) (elector : string) :
  _findMergeEventProofCandidates budget h lk tails electors = Ret (Some c) →
  match oget elector tails with
  | Some [tail] =>
      oget elector (xByElector c) = Some tail
      ∧ _initDescendants c !! eventHash tail = Some {[eventHash tail := []]}
  | _ =>
      oget elector (xByElector c) = None ∧ oget elector (yByElector c) = None
  end.
Proof.
  unfold _findMergeEventProofCandidates. intros Hret.
  pose proof (selectXs_tail tails elector) as Hx.
  case_bool_decide; [done|].
  destruct (selectXs tails) as [xs init]. simpl in Hx.
  case_bool_decide; [done|]. inv_ret Hret.
  destruct r as [ys xDescendants]. inv_ret Hret. simpl.
  assert (oget elector xs = None → oget elector ys = None) as Hnone.
  { intros Hxs. apply oget_None_keys in Hxs.
    apply (selectYs_keys _ _ _ _ _ _ _ _ _ _ Hstep Hxs). }
  destruct (oget elector tails) as [[|t [|? ?]]|]; auto.
Qed.


(** ** A single elector *)

Lemma flattenDescendants_empty budget x l :
  _flattenDescendants budget x ∅ = Ret l → l = [].
Proof.
  unfold _flattenDescendants. destruct budget as [|n]; [done|].
  cbn [flattenLoop]. unfold childrenIn. simpl. rewrite lookup_empty. simpl.
  change (uniq []) with (@nil Event). by destruct n; intros [= <-].
Qed.

Lemma selectYs_trivial budget h lk electors init xs acc acc' :
  selectYs budget h lk electors 1 init xs acc = Ret acc' →
  (∀ k d, acc.2 !! k = Some d → d = ∅) →
  ∀ k d, acc'.2 !! k = Some d → d = ∅.
Proof.
  revert acc. induction xs as [|[elector x] xs IH]; intros acc Hret Hacc;
    cbn [selectYs] in Hret.
  - by inv_ret Hret.
  - inv_ret Hret. destruct r0 as [result descendants].
    apply (IH _ Hret). unfold _findDiversePedigreeMergeEvent in Hstep0.
    rewrite bool_decide_eq_true_2 in Hstep0 by done.
    injection Hstep0 as <- <-. simpl. intros k d.
    rewrite lookup_insert. case_decide; [by intros [= <-] | apply Hacc].
Qed.

Lemma pairYs_trivial budget c ys pairs :
  (∀ k d, _xDescendants c !! k = Some d → d = ∅) →
  pairYs budget c 1 ys = Ret pairs →
  ∀ p, p ∈ pairs → proof p = [x p].
Proof.
  intros Hempty. revert pairs.
  induction ys as [|y0 ys IH]; intros pairs Hret; cbn [pairYs] in Hret.
  - inv_ret Hret. by intros p ?%elem_of_nil.
  - inv_ret Hret. rename r into x0, r0 into descendants, r1 into proof0.
    apply Hempty in Hstep0 as ->.
    apply flattenDescendants_empty in Hstep1 as ->.
    intros p [->|Hin]%elem_of_cons; [done|]. by apply (IH r2).
Qed.

Local Open Scope string_scope.

(** C8: in scenario S1 the decision is the Y-set [{a1}] paired with
    X = [a1], with proof [{a1}] and committed hashes [{a1}]; and whenever
    the supermajority is 1, the proof of every Y/X pair is [[X]]. *)
Theorem single_elector :
  (∃ lk,
      _getElectorBranches 3 s1_history ["A"] = Ret ([("A", [s1_a1])], lk)
      ∧ _findMergeEventProof 3 s1_history lk [("A", [s1_a1])] ["A"]
        = Ret [mkProof s1_a1 s1_a1 [s1_a1]])
  ∧ findConsensus 3 s1_history 0 ["A"]
    = Ret (Some (mkDecision ["a1"] ["a1"]))
  ∧ ∀ budget h lk tails electors pairs,
      twoThirdsMajority (length electors) = 1 →
      _findMergeEventProof budget h lk tails electors = Ret pairs →
      ∀ p, p ∈ pairs → proof p = [x p].
Proof.
  split_and!.
  - eexists. split; vm_compute; reflexivity.
  - vm_compute. reflexivity.
  - intros budget h lk tails electors pairs Hs Hret.
    unfold _findMergeEventProof in Hret. inv_ret Hret.
    destruct r as [c|]; [|inv_ret Hret; by intros p ?%elem_of_nil].
    case_bool_decide; [inv_ret Hret; by intros p ?%elem_of_nil|].
    inv_ret Hret.
    case_bool_decide; [inv_ret Hret; by intros p ?%elem_of_nil|].
    rewrite Hs in Hret. refine (pairYs_trivial _ _ _ _ _ Hret).
    unfold _findMergeEventProofCandidates in Hstep.
    case_bool_decide; [done|].
    destruct (selectXs tails) as [xs init].
    case_bool_decide; [done|]. inv_ret Hstep.
    destruct r0 as [ys xDescendants]. inv_ret Hstep. simpl.
    rewrite Hs in Hstep1.
    apply (selectYs_trivial _ _ _ _ _ _ _ _ Hstep1).
    intros k d. simpl. by rewrite lookup_empty.
Qed.

Lemma single_elector_witness :
  proof (mkProof s1_a1 s1_a1 [s1_a1]) = [x (mkProof s1_a1 s1_a1 [s1_a1])].
Proof.
  destruct single_elector as (_ & _ & Hgeneral).
  apply (Hgeneral 3 s1_history
           (mkLinks {["a2" := s1_a1; "a3" := s1_a2]}
                    {["a1" := [s1_a2]; "a2" := [s1_a3]]}
                    {["a1" := 1; "a2" := 2; "a3" := 3]})
           [("A", [s1_a1])] ["A"] [mkProof s1_a1 s1_a1 [s1_a1]]).
  - reflexivity.
  - vm_compute. reflexivity.
  - left.
Defined.

Local Close Scope string_scope.

(** ** Events of the snapshot *)

Lemma eventMap_Some h k e :
  eventMap h k = Some e → eventHash e = k ∧ e ∈ h.
Proof.
  unfold eventMap. intros Hfind. apply find_some in Hfind as [Hin Hk].
  apply bool_decide_eq_true in Hk. split; [done|].
  by apply list_elem_of_In.
Qed.

Lemma eventMap_canonical h k e : eventMap h k = Some e → canonical h e.
Proof.
  intros Hk. unfold canonical.
  by rewrite (proj1 (eventMap_Some _ _ _ Hk)).
Qed.

Lemma canonical_inj h e1 e2 :
  canonical h e1 → canonical h e2 → eventHash e1 = eventHash e2 → e1 = e2.
Proof. unfold canonical. intros H1 H2 Heq. rewrite Heq in H1. congruence. Qed.

Lemma canonical_elem h e : canonical h e → e ∈ h.
Proof. intros Hc. by apply eventMap_Some in Hc as [_ ?]. Qed.

Lemma elem_canonical h e : uniqueHashes h → e ∈ h → canonical h e.
Proof.
  unfold uniqueHashes, canonical, eventMap.
  induction h as [|e0 h IH]; [by intros _ ?%elem_of_nil|].
  rewrite fmap_cons, NoDup_cons. intros [Hfresh Hnd] Hin. simpl.
  case_bool_decide as Heq.
  - apply elem_of_cons in Hin as [->|Hin]; [done|].
    exfalso. apply Hfresh. rewrite Heq. by apply list_elem_of_fmap_2.
  - apply elem_of_cons in Hin as [->|Hin]; [done|]. by apply IH.
Qed.

Lemma parents_canonical h e p : p ∈ _parents h e → canonical h p.
Proof.
  unfold _parents. rewrite list_elem_of_omap.
  intros (k & _ & Hk). by apply eventMap_canonical in Hk.
Qed.

Lemma ancestor_canonical h a e :
  canonical h e → ancestor h a e → canonical h a.
Proof.
  unfold ancestor. intros Hc Hrtc. induction Hrtc as [|e p a Hp _ IH]; [done|].
  by apply IH, (parents_canonical h e).
Qed.

Lemma ancestor_refl h e : ancestor h e e.
Proof. apply rtc_refl. Qed.

Lemma ancestor_parent h a p e :
  p ∈ _parents h e → ancestor h a p → ancestor h a e.
Proof. intros Hp Ha. by eapply rtc_l. Qed.

Lemma ancestor_trans h a b e : ancestor h a b → ancestor h b e → ancestor h a e.
Proof. unfold ancestor. intros Hab Hbe. by etrans. Qed.

(** ** Insertion-ordered sets *)





Lemma elem_of_uniqBy {A} (key : A → string) (l : list A) a :
  a ∈ uniqBy key l → a ∈ l.
Proof.
  induction l as [|x l IH]; simpl; [done|].
  rewrite !elem_of_cons, list_elem_of_filter. naive_solver.
Qed.

Lemma elem_of_uniqStr l k : k ∈ uniqStr l ↔ k ∈ l.
Proof.
  unfold uniqStr. split; [apply elem_of_uniqBy|].
  induction l as [|x l IH]; simpl; [done|].
  rewrite !elem_of_cons, list_elem_of_filter.
  destruct (decide (k = x)); naive_solver.
Qed.


(** ** The committed hashes *)

Section Committed.
Context (h : History) (roots : list Event).
Hypothesis roots_canonical : ∀ x, x ∈ roots → canonical h x.







End Committed.

(** ** Tails and tree links *)

Lemma findTreeParent_Some h e p :
  findTreeParent h e = Some p →
  p ∈ _parents h e ∧ treeHash e = Some (eventHash p).
Proof.
  unfold findTreeParent. intros Hfind. apply find_some in Hfind as [Hp Hk].
  apply list_elem_of_In in Hp. by apply bool_decide_eq_true in Hk.
Qed.

Lemma linkEvent_linked h electors tails lk e :
  e ∈ h → linked h tails lk →
  linked h (linkEvent h electors (tails, lk) e).1
           (linkEvent h electors (tails, lk) e).2.
Proof.
  intros He [Hkeys Htails Hchildren]. unfold linkEvent.
  case_bool_decide; [|done].
  destruct (findTreeParent h e) as [p|] eqn:Hfind; simpl.
  - split; [done | done |]. simpl. intros k cs c.
    rewrite lookup_insert. case_decide as Hcase; [|apply Hchildren].
    intros [= <-]. subst k.
    intros [Hc| ->%list_elem_of_singleton]%elem_of_app.
    + unfold treeChildrenOf in Hc.
      destruct (_treeChildren lk !! eventHash p) as [cs|] eqn:Hcs;
        [by apply (Hchildren _ cs) | by apply elem_of_nil in Hc].
    + split; [done | by exists p].
  - split; simpl; [by apply NoDup_okeys_oset | | done].
    intros k ts t. rewrite oget_oset. case_bool_decide as Hk.
    + intros [= <-]. subst k.
      intros [Ht| ->%list_elem_of_singleton]%elem_of_app; [|done].
      destruct (oget (_getCreator e) tails) as [ts|] eqn:Hts;
        [by apply (Htails _ ts) | by apply elem_of_nil in Ht].
    + apply Htails.
Qed.

Lemma foldl_linkEvent_linked h electors l tails lk :
  (∀ e, e ∈ l → e ∈ h) → linked h tails lk →
  linked h (foldl (linkEvent h electors) (tails, lk) l).1
           (foldl (linkEvent h electors) (tails, lk) l).2.
Proof.
  revert tails lk. induction l as [|e l IH]; intros tails lk Hl Hinv; [done|].
  cbn [foldl].
  pose proof (linkEvent_linked h electors tails lk e) as Hstep.
  destruct (linkEvent h electors (tails, lk) e) as [tails' lk'].
  apply IH; [intros; apply Hl; by right|].
  apply Hstep; [apply Hl; left | done].
Qed.

Lemma getElectorBranches_linked budget h electors tails lk :
  _getElectorBranches budget h electors = Ret (tails, lk) → linked h tails lk.
Proof.
  unfold _getElectorBranches. intros Hret.
  pose proof (foldl_linkEvent_linked h electors h [] noLinks) as Hinv.
  destruct (foldl (linkEvent h electors) ([], noLinks) h) as [tails0 lk0].
  inv_ret Hret. simpl in Hinv.
  destruct Hinv as [Hkeys Htails Hchildren]; [done | |by split].
  split; [apply NoDup_nil_2 | done |].
  intros k cs c. simpl. by rewrite lookup_empty.
Qed.

Lemma selectXs_source tails k x :
  oget k (selectXs tails).1 = Some x → oget k tails = Some [x].
Proof.
  intros Hx. pose proof (selectXs_tail tails k) as Hk.
  destruct (oget k tails) as [[|t [|? ?]]|]; try congruence.
  destruct Hk as [Hk _]. congruence.
Qed.

Lemma NoDup_okeys_selectXs tails : NoDup (okeys (selectXs tails).1).
Proof.
  unfold selectXs. generalize (okeys tails).
  assert (NoDup (okeys (([], ∅) : list (string * Event)
                                  * gmap string Descendants).1)) as Hacc
    by apply NoDup_nil_2.
  revert Hacc. generalize (([], ∅) : list (string * Event)
                                     * gmap string Descendants).
  intros acc Hacc keys. revert acc Hacc.
  induction keys as [|k keys IH]; intros [xs init] Hacc; [done|].
  cbn [foldl]. apply IH. unfold selectX.
  destruct (oget k tails) as [[|t [|? ?]]|]; try done.
  by apply NoDup_okeys_oset.
Qed.

(** ** Pairs of Y and X *)

Lemma candidates_Ret budget h lk tails electors c :
  _findMergeEventProofCandidates budget h lk tails electors = Ret (Some c) →
  xByElector c = (selectXs tails).1
  ∧ _initDescendants c = (selectXs tails).2
  ∧ selectYs budget h lk electors (twoThirdsMajority (length electors))
      (selectXs tails).2 (selectXs tails).1 ([], ∅)
    = Ret (yByElector c, _xDescendants c).
Proof.
  unfold _findMergeEventProofCandidates. intros Hret.
  case_bool_decide; [done|].
  destruct (selectXs tails) as [xs init].
  case_bool_decide; [done|]. inv_ret Hret.
  destruct r as [ys xDescendants]. by inv_ret Hret.
Qed.

Lemma pairYs_spec budget c s ys pairs :
  pairYs budget c s ys = Ret pairs →
  ∀ p, p ∈ pairs →
    y p ∈ ys
    ∧ oget (_getCreator (y p)) (xByElector c) = Some (x p)
    ∧ ∃ descendants flat,
        _xDescendants c !! eventHash (y p) = Some descendants
        ∧ _flattenDescendants budget (x p) descendants = Ret flat
        ∧ proof p = if bool_decide (length flat = 0) && bool_decide (s = 1)
                    then [x p] else flat.
Proof.
  revert pairs. induction ys as [|y0 ys IH]; intros pairs Hret;
    cbn [pairYs] in Hret.
  - inv_ret Hret. by intros p ?%elem_of_nil.
  - inv_ret Hret. intros p [->|Hin]%elem_of_cons; simpl.
    + split_and!; [left | done | eauto].
    + destruct (IH _ Hstep2 p Hin) as (Hy & Hx & Hproof).
      split_and!; [by right | done | done].
Qed.


(** ** The committed event hashes *)


Local Open Scope string_scope.


Local Close Scope string_scope.

(** ** Determinism and order of the result *)




Local Open Scope string_scope.


Local Close Scope string_scope.


(** ** Decisions of the protocol *)

Section Decisions.
Context (budget : nat) (h : History) (lk : Links) (c : Candidates)
  (electors : list string).





End Decisions.


(** ** Descendants in path *)

Section Paths.
Context (budget : nat) (h : History).

Lemma pathMap_mono y y' descendants :
  ancestor h y y' → pathMap h y descendants → pathMap h y' descendants.
Proof.
  intros Hy Hmap k d e Hk He.
  destruct (Hmap k d e Hk He) as (Hcan & Hanc & Hp).
  split_and!; [done | by apply ancestor_trans with y | done].
Qed.

Lemma addParent_pathMap y event parent descendants next :
  canonical h event → ancestor h event y → parent ∈ _parents h event →
  pathMap h y descendants → upTo h y next →
  pathMap h y (addParent event (descendants, next) parent).1
  ∧ upTo h y (addParent event (descendants, next) parent).2.
Proof.
  intros Hcan Hanc Hparent Hmap Hnext. unfold addParent.
  assert (∀ d, (∀ e, e ∈ d → canonical h e ∧ ancestor h e y
                     ∧ ∃ p, p ∈ _parents h e ∧ eventHash p = eventHash parent)
               → pathMap h y (<[eventHash parent := d ++ [event]]> descendants))
    as Hins.
  { intros d Hd k d' e. rewrite lookup_insert. case_decide as Hk.
    - intros [= <-]. subst k.
      intros [He| ->%list_elem_of_singleton]%elem_of_app; [by apply Hd|].
      split_and!; [done | done | by exists parent].
    - apply Hmap. }
  destruct (descendants !! eventHash parent) as [d|] eqn:Hd.
  - destruct (includes event d); simpl; [done|]. split; [|done].
    apply Hins. intros e He. by apply (Hmap _ d).
  - simpl. split.
    + apply (Hins []). by intros e ?%elem_of_nil.
    + intros e [He| ->%list_elem_of_singleton]%elem_of_app; [by apply Hnext|].
      split; [by apply (parents_canonical h event)|].
      by apply rtc_r with event.
Qed.

Lemma visitEvent_pathMap y ancestryMap event descendants next :
  canonical h event → ancestor h event y →
  pathMap h y descendants → upTo h y next →
  pathMap h y (visitEvent h ancestryMap (descendants, next) event).1
  ∧ upTo h y (visitEvent h ancestryMap (descendants, next) event).2.
Proof.
  intros Hcan Hanc Hmap Hnext. unfold visitEvent.
  case_bool_decide; [done|].
  assert (∀ p, p ∈ _parents h event → p ∈ _parents h event) as Hps by done.
  revert Hps. generalize (_parents h event) at 1 3 4.
  intros ps. revert descendants next Hmap Hnext.
  induction ps as [|p ps IH]; intros descendants next Hmap Hnext Hps; [done|].
  cbn [foldl].
  destruct (addParent_pathMap y event p descendants next) as [Hmap' Hnext'];
    [done | done | apply Hps; left | done | done |].
  destruct (addParent event (descendants, next) p) as [descendants' next'].
  apply IH; [done | done | intros; apply Hps; by right].
Qed.

Lemma descendantsLevel_pathMap y ancestryMap current descendants next :
  upTo h y current → pathMap h y descendants → upTo h y next →
  pathMap h y (foldl (visitEvent h ancestryMap) (descendants, next) current).1
  ∧ upTo h y (foldl (visitEvent h ancestryMap) (descendants, next) current).2.
Proof.
  revert descendants next.
  induction current as [|event rest IH];
    intros descendants next Hcurrent Hmap Hnext; [done|].
  cbn [foldl]. destruct (Hcurrent event) as [Hcan Hanc]; [left|].
  destruct (visitEvent_pathMap y ancestryMap event descendants next)
    as [Hmap' Hnext']; [done..|].
  destruct (visitEvent h ancestryMap (descendants, next) event)
    as [descendants' next'].
  apply IH; [intros e He; apply Hcurrent; by right | done | done].
Qed.

Lemma descendantsLoop_pathMap y n ancestryMap next descendants descendants' :
  descendantsLoop h n ancestryMap next descendants = Ret descendants' →
  upTo h y next → pathMap h y descendants → pathMap h y descendants'.
Proof.
  revert next descendants.
  induction n as [|n IH]; intros next descendants Hret Hnext Hmap.
  - destruct next; simpl in Hret; [by inv_ret Hret | done].
  - destruct next as [|event rest]; [simpl in Hret; by inv_ret Hret|].
    cbn [descendantsLoop] in Hret.
    destruct (descendantsLevel_pathMap y ancestryMap (event :: rest)
                descendants []) as [Hmap' Hnext'];
      [done | done | by intros e ?%elem_of_nil |].
    destruct (foldl (visitEvent h ancestryMap) (descendants, [])
                (event :: rest)) as [descendants1 next1].
    by apply (IH _ _ Hret).
Qed.

Lemma findDescendantsInPath_pathMap y descendants ancestryMap descendants' :
  _findDescendantsInPath budget h y descendants ancestryMap
  = Ret descendants' →
  canonical h y → pathMap h y descendants → pathMap h y descendants'.
Proof.
  unfold _findDescendantsInPath. intros Hret Hcan.
  apply (descendantsLoop_pathMap _ _ _ _ _ _ Hret).
  intros e ->%list_elem_of_singleton. split; [done | apply ancestor_refl].
Qed.

Lemma childrenIn_between x y descendants current :
  pathMap h y descendants →
  (∀ e, e ∈ current → canonical h e ∧ ancestor h x e) →
  between h x y (childrenIn descendants current).
Proof.
  intros Hmap Hcurrent e. unfold childrenIn.
  rewrite list_elem_of_In, in_flat_map.
  intros (event & Hevent%list_elem_of_In & He%list_elem_of_In).
  destruct (descendants !! eventHash event) as [d|] eqn:Hd;
    [|by apply elem_of_nil in He].
  simpl in He. destruct (Hmap _ d e Hd He) as (Hcan & Hanc & p & Hp & Hk).
  destruct (Hcurrent event Hevent) as [Hcan' Hx].
  apply (canonical_inj h p event) in Hk as ->;
    [|by apply (parents_canonical h e) | done].
  split_and!; [done | | done]. by apply ancestor_parent with event.
Qed.

Lemma flattenLoop_between x y n descendants next result flat :
  flattenLoop n descendants next result = Ret flat →
  pathMap h y descendants →
  (∀ e, e ∈ next → canonical h e ∧ ancestor h x e) →
  between h x y result → between h x y flat.
Proof.
  revert next result.
  induction n as [|n IH]; intros next result Hret Hmap Hnext Hresult.
  - destruct next; [|done]. simpl in Hret. inv_ret Hret.
    intros e He. by apply Hresult, (elem_of_uniqBy eventHash).
  - destruct next as [|event rest].
    + simpl in Hret. inv_ret Hret.
      intros e He. by apply Hresult, (elem_of_uniqBy eventHash).
    + cbn [flattenLoop] in Hret.
      pose proof (childrenIn_between x y descendants (event :: rest) Hmap Hnext)
        as Hchildren.
      assert (between h x y (uniq (childrenIn descendants (event :: rest))))
        as Huniq.
      { intros e He. by apply Hchildren, (elem_of_uniqBy eventHash). }
      apply (IH _ _ Hret Hmap).
      * intros e He. destruct (Huniq e He) as (? & ? & ?). done.
      * intros e [He|He]%elem_of_app; [by apply Hresult | by apply Huniq].
Qed.

Lemma flattenDescendants_between x y descendants flat :
  _flattenDescendants budget x descendants = Ret flat →
  canonical h x → pathMap h y descendants → between h x y flat.
Proof.
  unfold _flattenDescendants. intros Hret Hcan Hmap.
  apply (flattenLoop_between x y _ _ _ _ _ Hret Hmap).
  - intros e ->%list_elem_of_singleton. split; [done | apply ancestor_refl].
  - by intros e ?%elem_of_nil.
Qed.

End Paths.

(** ** Candidates for Y *)

Section CandidateProps.
Context (budget : nat) (h : History) (lk : Links)
  (tails : list (string * list Event)).
Hypothesis unique : uniqueHashes h.
Hypothesis own : ownBranches h.
Hypothesis links : linked h tails lk.

Lemma onlyTreeChild_spec e child :
  canonical h e → onlyTreeChild lk e = Some child →
  canonical h child ∧ e ∈ _parents h child ∧ creator child = creator e.
Proof.
  intros Hcan. unfold onlyTreeChild.
  destruct (_treeChildren lk !! eventHash e) as [[|c0 [|? ?]]|] eqn:Hcs;
    try done.
  intros [= ->].
  destruct (linked_children _ _ _ links _ _ child Hcs) as (Hin & p & Hp & Hk);
    [left|].
  apply findTreeParent_Some in Hp as [Hp Htree]. rewrite Hk in Htree.
  assert (p = e) as ->.
  { apply (canonical_inj h); [by apply (parents_canonical h child) | done..]. }
  split_and!; [by apply elem_canonical | done |].
  unfold ownBranches in own. rewrite Forall_forall in own.
  specialize (own child Hin). rewrite Forall_forall in own.
  symmetry. by apply own.
Qed.

Lemma pedigreeLoop_candidate n electors s x ancestryMap treeDescendant
    descendants y descendants' :
  pedigreeLoop budget h n lk electors s x ancestryMap treeDescendant
    descendants = Ret (Some y, descendants') →
  canonical h treeDescendant → ancestor h x treeDescendant →
  creator treeDescendant = creator x →
  pathMap h treeDescendant descendants →
  candidateY h x y descendants'.
Proof.
  revert treeDescendant descendants.
  induction n as [|n IH];
    intros treeDescendant descendants Hret Hcan Hanc Hcreator Hmap; [done|].
  cbn [pedigreeLoop] in Hret. inv_ret Hret.
  rename r into descendants1, r0 into enough.
  apply findDescendantsInPath_pathMap in Hstep; [|done..].
  destruct enough.
  - inv_ret Hret. by split_and!.
  - destruct (onlyTreeChild lk treeDescendant) as [child|] eqn:Hchild;
      [|by inv_ret Hret].
    destruct (onlyTreeChild_spec _ _ Hcan Hchild) as (Hcan' & Hp & Hcr).
    apply (IH _ _ Hret); [done | | congruence |].
    + by apply ancestor_parent with treeDescendant.
    + apply pathMap_mono with treeDescendant; [|done].
      apply ancestor_parent with treeDescendant; [done | apply ancestor_refl].
Qed.

Lemma findDiversePedigree_candidate electors s x ancestryMap y descendants :
  _findDiversePedigreeMergeEvent budget h lk x electors s ∅ ancestryMap
  = Ret (Some y, descendants) →
  canonical h x → candidateY h x y descendants.
Proof.
  unfold _findDiversePedigreeMergeEvent. intros Hret Hcan.
  assert (∀ e, pathMap h e ∅) as Hempty.
  { intros e k d e'. by rewrite lookup_empty. }
  case_bool_decide.
  - inv_ret Hret. split_and!; [done | apply ancestor_refl | done | done].
  - destruct (onlyTreeChild lk x) as [child|] eqn:Hchild; [|by inv_ret Hret].
    destruct (onlyTreeChild_spec _ _ Hcan Hchild) as (Hcan' & Hp & Hcr).
    apply (pedigreeLoop_candidate _ _ _ _ _ _ _ _ _ Hret); try done.
    apply ancestor_parent with x; [done | apply ancestor_refl].
Qed.

Lemma selectYs_candidates electors s init all xs acc acc' :
  selectYs budget h lk electors s init xs acc = Ret acc' →
  (∀ elector x, (elector, x) ∈ all → canonical h x ∧ creator x = elector) →
  (∀ kx, kx ∈ xs → kx ∈ all) →
  candidateYs h all acc → candidateYs h all acc'.
Proof.
  intros Hret Hall. revert acc Hret.
  induction xs as [|[elector x] xs IH]; intros acc Hret Hxs Hacc;
    cbn [selectYs] in Hret; [by inv_ret Hret|].
  inv_ret Hret. destruct r0 as [result descendants].
  apply (IH _ Hret); [intros; apply Hxs; by right|].
  destruct result as [y|]; [|done].
  destruct (Hall elector x) as [Hcan Hcreator]; [apply Hxs; left|].
  apply findDiversePedigree_candidate in Hstep0; [|done].
  destruct acc as [ys xDescendants]. intros elector' y'. simpl.
  rewrite oget_oset. case_bool_decide as Hk.
  - intros [= <-]. subst elector'.
    destruct Hstep0 as (Hy & Hanc & Hcr & Hmap).
    split; [congruence|]. exists x, descendants.
    split_and!; [apply Hxs; left | apply lookup_insert_eq | done].
  - intros Hy'. destruct (Hacc elector' y' Hy') as (Hcr' & x' & d' & Hx' & Hd' & Hc').
    split; [done|]. exists x', d'. split_and!; [done | | done].
    simpl in Hd'. rewrite lookup_insert_ne; [done|].
    intros Heq. apply Hk.
    destruct Hstep0 as (Hy & _ & Hcr & _). destruct Hc' as (Hy'c & _).
    apply (canonical_inj h y y' Hy Hy'c) in Heq. subst y'. congruence.
Qed.

End CandidateProps.

(** ** The protocol only ever supports Y candidates *)

Section SupportedYs.
Context (budget : nat) (h : History) (lk : Links) (c : Candidates)
  (electors : list string) (allYs : list Event).

Lemma findChoice_Some tally set0 choice :
  findChoice tally set0 = Some choice →
  ∃ i r, choiceIndex choice = Some i ∧ tally !! i = Some r
         ∧ choiceSet choice = set r ∧ choiceCount choice = count r.
Proof.
  unfold findChoice. intros Hfind.
  destruct (findIndex (_findSetInTally set0) tally) as [i|]; [|done].
  simpl in Hfind. destruct (tally !! i) as [r|] eqn:Hr; [|done].
  simpl in Hfind. injection Hfind as <-. by exists i, r.
Qed.

Lemma countVote_Ys tally supporting v :
  (∀ r y, r ∈ tally → y ∈ set r → y ∈ allYs) →
  (∀ k ys y, supporting !! k = Some ys → y ∈ ys → y ∈ allYs) →
  (∀ r y, r ∈ (countVote (tally, supporting) v).1 → y ∈ set r → y ∈ allYs)
  ∧ (∀ k ys y, (countVote (tally, supporting) v).2 !! k = Some ys →
               y ∈ ys → y ∈ allYs).
Proof.
  intros Htally Hsup. unfold countVote.
  destruct v as [e|]; [|done].
  destruct (supporting !! eventHash e) as [s|] eqn:Hs; [|done].
  destruct (findChoice tally (Some s)) as [[[i|] tset tcount]|] eqn:Hfind;
    simpl.
  - apply findChoice_Some in Hfind as (i' & r & [= <-] & Hr & Hset & _).
    simpl in Hset. subst tset.
    assert (∀ y, y ∈ set r → y ∈ allYs) as Hset.
    { intros y. apply Htally. by apply list_elem_of_lookup_2 in Hr. }
    split.
    + intros r' y Hr'. apply list_elem_of_lookup in Hr' as [j Hj].
      destruct (decide (i = j)) as [->|Hne].
      * rewrite list_lookup_insert_eq in Hj
          by (by apply lookup_lt_Some in Hr).
        injection Hj as <-. apply Hset.
      * rewrite list_lookup_insert_ne in Hj by done.
        apply Htally. by apply list_elem_of_lookup_2 in Hj.
    + intros k ys y. rewrite lookup_insert. case_decide; [|apply Hsup].
      intros [= <-]. apply Hset.
  - apply findChoice_Some in Hfind as (? & ? & ? & _). done.
  - split; [|done].
    intros r y [Hr| ->%list_elem_of_singleton]%elem_of_app Hy;
      [by apply (Htally r) | by apply (Hsup _ _ _ Hs)].
Qed.

Lemma foldl_countVote_Ys vs tally supporting :
  (∀ r y, r ∈ tally → y ∈ set r → y ∈ allYs) →
  (∀ k ys y, supporting !! k = Some ys → y ∈ ys → y ∈ allYs) →
  (∀ r y, r ∈ (foldl countVote (tally, supporting) vs).1 → y ∈ set r →
          y ∈ allYs)
  ∧ (∀ k ys y, (foldl countVote (tally, supporting) vs).2 !! k = Some ys →
               y ∈ ys → y ∈ allYs).
Proof.
  revert tally supporting.
  induction vs as [|v vs IH]; intros tally supporting Htally Hsup; [done|].
  cbn [foldl]. destruct (countVote_Ys tally supporting v Htally Hsup)
    as [Htally1 Hsup1].
  destruct (countVote (tally, supporting) v) as [tally1 sup1].
  apply IH; [apply Htally1 | apply Hsup1].
Qed.

Lemma tallyVotes_Ys t votes tally t' :
  tallyVotes t votes = (tally, t') → supportsYs allYs t →
  supportsYs allYs t' ∧ ∀ r y, r ∈ tally → y ∈ set r → y ∈ allYs.
Proof.
  unfold tallyVotes. intros Htally [Hy Hsup].
  destruct (foldl_countVote_Ys (ovalues votes) [] (_supporting t))
    as [Ht0 Hs0]; [by intros r y ?%elem_of_nil | done |].
  destruct (foldl countVote ([], _supporting t) (ovalues votes))
    as [tally0 sup0].
  injection Htally as <- <-. by split.
Qed.

Lemma chooseNext_Ys t votes tally existingPreCommit nextChoice :
  chooseNext t votes tally existingPreCommit = Ret nextChoice →
  supportsYs allYs t → (∀ r y, r ∈ tally → y ∈ set r → y ∈ allYs) →
  ∀ y, y ∈ choiceSet nextChoice → y ∈ allYs.
Proof.
  unfold chooseNext. intros Hret [Hy Hsup] Htally.
  assert (∀ set0 choice, findChoice tally set0 = Some choice →
                         ∀ y, y ∈ choiceSet choice → y ∈ allYs) as Hfound.
  { intros set0 choice (i & r & _ & Hr & -> & _)%findChoice_Some y.
    apply Htally. by apply list_elem_of_lookup_2 in Hr. }
  inv_ret Hret. destruct r as [choice|].
  - inv_ret Hret. destruct existingPreCommit; inv_ret Hstep.
    by apply (Hfound r).
  - inv_ret Hret. rename r into ys.
    destruct (findChoice tally (Some (uniq ys))) as [choice|] eqn:Hfind;
      simpl; [by apply (Hfound (Some (uniq ys)))|].
    intros y Hin%(elem_of_uniqBy eventHash).
    apply mapM_Some_1 in Hstep0.
    apply list_elem_of_lookup in Hin as [i Hi].
    destruct (Forall2_lookup_r _ _ _ _ _ Hstep0 Hi) as (r & _ & Hr).
    by apply (Hy (eventHash r)).
Qed.

Lemma checkPreCommit_frame t event existing nextSet hasSupermajority checked :
  checkPreCommit t event existing nextSet hasSupermajority = Ret checked →
  match checked with
  | inl result => ∀ r, result = Some r → ∃ k, _supporting t !! k = Some r
  | inr (_, t') => _y t' = _y t ∧ _supporting t' = _supporting t
  end.
Proof.
  unfold checkPreCommit. intros Hret.
  destruct existing as [pc|]; [|by inv_ret Hret].
  inv_ret Hret. rename r into pcSupporting.
  destruct (negb (_compareSupportSet pcSupporting nextSet)).
  { inv_ret Hret. by destruct (_confirmPoint t !! eventHash pc). }
  destruct (_toConfirm t !! eventHash event) as [toConfirm|];
    [|by inv_ret Hret].
  destruct hasSupermajority; inv_ret Hret; [|done].
  intros r Hr. by exists (eventHash toConfirm).
Qed.

Lemma createPreCommit_frame t event s t' :
  createPreCommit budget h lk electors t event s = Ret t' →
  _y t' = _y t ∧ _supporting t' = _supporting t.
Proof.
  unfold createPreCommit. intros Hret. inv_ret Hret.
  destruct r0 as [[cp|] ?]; by inv_ret Hret.
Qed.

Lemma tally_Ys t event result t' :
  _tally budget h lk electors t event = Ret (result, t') →
  supportsYs allYs t →
  supportsYs allYs t' ∧ ∀ r y, result = Some r → y ∈ r → y ∈ allYs.
Proof.
  unfold _tally. intros Hret Ht. inv_ret Hret. rename r into votes.
  destruct (tallyVotes t votes) as [tally t1] eqn:Htally.
  cbv beta iota zeta in Hret.
  destruct (tallyVotes_Ys _ _ _ _ Htally Ht) as [Ht1 Htally1].
  inv_ret Hret. rename r into nextChoice, r0 into checked.
  pose proof (chooseNext_Ys _ _ _ _ _ Hstep0 Ht1 Htally1) as Hnext.
  apply checkPreCommit_frame in Hstep1. destruct Ht1 as [Hy1 Hs1].
  destruct checked as [result0|[existing t2]].
  - inv_ret Hret. split; [done|]. intros r y Hr Hy.
    destruct (Hstep1 r Hr) as [k Hk]. by apply (Hs1 _ _ _ Hk).
  - destruct Hstep1 as [Hy2 Hs2].
    inv_ret Hret. destruct r as [existing' t3]. inv_ret Hret.
    split; [|done].
    assert (_y t3 = _y t1 ∧ _supporting t3 = _supporting t1) as [Hy3 Hs3].
    { destruct existing as [pc|]; [by inv_ret Hstep1|].
      destruct (bool_decide _); [|by inv_ret Hstep1].
      inv_ret Hstep1. apply createPreCommit_frame in Hstep2 as [-> ->].
      done. }
    split.
    + intros k y. destruct existing'; simpl; rewrite Hy3; apply Hy1.
    + clear Hstep1. intros k ys y. destruct existing'; simpl;
        (rewrite ?lookup_insert; case_decide;
         [intros [= <-]; apply Hnext | rewrite Hs3; apply Hs1]).
Qed.

Lemma collectVotes_frame event ref electorSet t t' :
  collectVotes budget h lk c event ref electorSet t = Ret t' →
  _y t' = _y t ∧ _supporting t' = _supporting t.
Proof.
  revert t. induction electorSet as [|elector rest IH]; intros t Hret;
    cbn [collectVotes] in Hret; [by inv_ret Hret|].
  inv_ret Hret. by destruct (IH _ Hret) as [-> ->].
Qed.

Lemma gatherVotes_frame t event treeParent wait t' :
  gatherVotes budget h lk c t event treeParent = Ret (wait, t') →
  _y t' = _y t ∧ _supporting t' = _supporting t.
Proof.
  unfold gatherVotes. intros Hret.
  destruct (_yDescendants _ !! eventHash event) as [ref|];
    [|destruct (_yDescendants _ !! eventHash treeParent) as [ref|]];
    inv_ret Hret; apply collectVotes_frame in Hstep as [-> ->];
    by destruct (_votes t !! eventHash event).
Qed.

Lemma tallyEvent_Ys t event result pushed t' :
  tallyEvent budget h lk c electors t event = Ret (result, pushed, t') →
  supportsYs allYs t →
  supportsYs allYs t' ∧ ∀ r y, result = Some r → y ∈ r → y ∈ allYs.
Proof.
  unfold tallyEvent. intros Hret [Hy Hsup]. inv_ret Hret.
  rename r into treeParent. destruct r0 as [wait t1].
  assert (supportsYs allYs
            match _y t !! eventHash treeParent with
            | Some y => with_y <[eventHash event:=y]> t
            | None => t
            end) as Ht0.
  { destruct (_y t !! eventHash treeParent) as [y|] eqn:Hyp; [|by split].
    split; [|done]. intros k y'. simpl. rewrite lookup_insert.
    case_decide; [intros [= <-]; by apply (Hy _ _ Hyp) | apply Hy]. }
  assert (supportsYs allYs t1) as Ht1.
  { destruct (_supporting _ !! eventHash event); [by inv_ret Hstep0|].
    apply gatherVotes_frame in Hstep0 as [Hy1 Hs1]. destruct Ht0 as [Hy0 Hs0].
    split; [by rewrite Hy1 | by rewrite Hs1]. }
  destruct wait; [by inv_ret Hret|]. inv_ret Hret.
  destruct r as [result1 t2].
  destruct (tally_Ys _ _ _ _ Hstep1 Ht1) as [Ht2 Hresult].
  destruct result1 as [r1|]; inv_ret Hret; [|done].
  split; [done|]. intros r y [= <-]. by apply Hresult.
Qed.

Lemma tallyLevel_Ys current next t result next' t' :
  tallyLevel budget h lk c electors current next t = Ret (result, next', t') →
  supportsYs allYs t →
  supportsYs allYs t' ∧ ∀ r y, result = Some r → y ∈ r → y ∈ allYs.
Proof.
  revert next t. induction current as [|event rest IH]; intros next t Hret Ht;
    cbn [tallyLevel] in Hret; [by inv_ret Hret|].
  inv_ret Hret. destruct r as [[result1 pushed] t1].
  destruct (tallyEvent_Ys _ _ _ _ _ Hstep Ht) as [Ht1 Hresult].
  destruct result1 as [r1|]; [|by apply (IH _ _ Hret)].
  inv_ret Hret. split; [done|]. intros r y [= <-]. by apply Hresult.
Qed.

Lemma tallyLoop_Ys n next t result t' :
  tallyLoop budget h lk c electors n next t = Ret (result, t') →
  supportsYs allYs t → ∀ r y, result = Some r → y ∈ r → y ∈ allYs.
Proof.
  revert next t. induction n as [|n IH]; intros next t Hret Ht.
  - destruct next; simpl in Hret; [by inv_ret Hret | done].
  - destruct next as [|event rest]; [simpl in Hret; by inv_ret Hret|].
    cbn [tallyLoop] in Hret. inv_ret Hret. destruct r as [[result1 next1] t1].
    destruct (tallyLevel_Ys _ _ _ _ _ _ Hstep Ht) as [Ht1 Hresult].
    destruct result1 as [r1|]; [|by apply (IH _ _ Hret)].
    inv_ret Hret. intros r y [= <-]. by apply Hresult.
Qed.

Lemma initVotes_Ys all maps ys t t' :
  initVotes budget h all maps ys t = Ret t' →
  (∀ y, y ∈ ys → y ∈ allYs) → supportsYs allYs t → supportsYs allYs t'.
Proof.
  revert t. induction ys as [|y0 ys IH]; intros t Hret Hys Ht;
    cbn [initVotes] in Hret; [by inv_ret Hret|].
  inv_ret Hret. apply (IH _ Hret); [intros; apply Hys; by right|].
  destruct Ht as [Hy Hsup]. split; [|done].
  intros k y. simpl. rewrite lookup_insert.
  case_decide; [intros [= <-]; apply Hys; left | apply Hy].
Qed.

End SupportedYs.

Lemma findConsensusMergeEventProof_Ys budget h lk c electors ys :
  _findConsensusMergeEventProof budget h lk c electors = Ret ys →
  ∀ y, y ∈ ys → y ∈ ovalues (yByElector c).
Proof.
  unfold _findConsensusMergeEventProof. intros Hret.
  case_bool_decide; [by inv_ret Hret|]. inv_ret Hret.
  destruct r2 as [[ys'|] t']; inv_ret Hret; [|by intros y ?%elem_of_nil].
  intros y Hy. simpl in Hy.
  apply (initVotes_Ys budget h (ovalues (yByElector c))) in Hstep1;
    [|done|split; intros ? ?; simpl; by rewrite ?lookup_empty].
  by apply (tallyLoop_Ys _ _ _ _ _ _ _ _ _ _ _ Hstep2 Hstep1 ys').
Qed.

(** ** Containment of the consensus proof *)

Lemma elem_oget {V} (k : string) (v : V) (o : list (string * V)) :
  NoDup (okeys o) → (k, v) ∈ o → oget k o = Some v.
Proof.
  unfold okeys. induction o as [|[k0 v0] o IH]; simpl.
  - by intros _ ?%elem_of_nil.
  - rewrite NoDup_cons. intros [Hk Hnd] [[= -> ->]|Hin]%elem_of_cons.
    + by rewrite bool_decide_eq_true_2.
    + rewrite bool_decide_eq_false_2; [by apply IH|].
      intros ->. apply Hk. by apply (list_elem_of_fmap_2 fst) in Hin.
Qed.

Lemma selectYs_NoDup budget h lk electors s init xs acc acc' :
  selectYs budget h lk electors s init xs acc = Ret acc' →
  NoDup (okeys acc.1) → NoDup (okeys acc'.1).
Proof.
  revert acc. induction xs as [|[elector x0] xs IH]; intros acc Hret Hnd;
    cbn [selectYs] in Hret; [by inv_ret Hret|].
  inv_ret Hret. destruct r0 as [result descendants].
  apply (IH _ Hret). destruct result; [|done].
  simpl. by apply NoDup_okeys_oset.
Qed.

Lemma findMergeEventProof_between budget h electors tails lk pairs :
  uniqueHashes h → ownBranches h →
  _getElectorBranches budget h electors = Ret (tails, lk) →
  _findMergeEventProof budget h lk tails electors = Ret pairs →
  ∀ p, p ∈ pairs →
    ancestor h (x p) (y p) ∧ between h (x p) (y p) (proof p).
Proof.
  intros Huniq Hown Hbr Hret p Hp.
  pose proof (getElectorBranches_linked _ _ _ _ _ Hbr) as Hlinks.
  unfold _findMergeEventProof in Hret. inv_ret Hret.
  destruct r as [c|]; [|inv_ret Hret; by apply elem_of_nil in Hp].
  case_bool_decide; [inv_ret Hret; by apply elem_of_nil in Hp|].
  inv_ret Hret. rename r into ys.
  case_bool_decide; [inv_ret Hret; by apply elem_of_nil in Hp|].
  destruct (candidates_Ret _ _ _ _ _ _ Hstep) as (Hxs & _ & Hys).
  pose proof (NoDup_okeys_selectXs tails) as Hxkeys.
  assert (∀ elector x0, (elector, x0) ∈ (selectXs tails).1 →
                        canonical h x0 ∧ creator x0 = elector) as Hall.
  { intros elector x0 Hin. apply elem_oget in Hin; [|done].
    apply selectXs_source in Hin.
    destruct (linked_tails _ _ _ Hlinks _ _ x0 Hin) as (Hh & Hcr & _); [left|].
    split; [by apply elem_canonical | done]. }
  assert (candidateYs h (selectXs tails).1 (yByElector c, _xDescendants c))
    as Hcands.
  { apply (selectYs_candidates budget h lk tails Huniq Hown Hlinks
             _ _ _ (selectXs tails).1 _ _ _ Hys Hall); [done|].
    by intros elector y0 ?. }
  apply selectYs_NoDup in Hys as Hykeys; [|apply NoDup_nil_2].
  simpl in Hykeys.
  destruct (pairYs_spec _ _ _ _ _ Hret p Hp)
    as (Hy & Hx & descendants & flat & Hd & Hflat & Hproof).
  apply (findConsensusMergeEventProof_Ys _ _ _ _ _ _ Hstep0) in Hy.
  apply elem_ovalues_oget in Hy as [elector Hy]; [|done].
  destruct (Hcands elector (y p) Hy) as (Hcr & x0 & d0 & Hx0 & Hd0 & Hcand).
  simpl in Hd0. rewrite Hd in Hd0. injection Hd0 as <-.
  apply elem_oget in Hx0; [|done].
  unfold _getCreator in Hx. rewrite Hcr, Hxs, Hx0 in Hx. injection Hx as ->.
  destruct Hcand as (Hycan & Hanc & _ & Hmap).
  destruct (Hall elector (x p)) as [Hxcan _];
    [by apply oget_Some_elem|].
  split; [done|].
  pose proof (flattenDescendants_between _ _ _ _ _ _ Hflat Hxcan Hmap)
    as Hbetween.
  rewrite Hproof. destruct (_ && _); [|done].
  intros e ->%list_elem_of_singleton.
  split_and!; [done | apply ancestor_refl | done].
Qed.

(** C1: in a decision every Y is reached from its paired X, and every hash
    of [consensusProofHashes] is the hash of an event of the snapshot that is
    a descendant of a paired X and an ancestor of that X's Y; ancestry is
    reflexive, a Y endorses its X and with one elector Y is X. *)
Theorem proof_contained (budget : nat) (h : History) (blockHeight : nat)
    (electors : list string) (d : Decision) :
  uniqueHashes h → ownBranches h →
  findConsensus budget h blockHeight electors = Ret (Some d) →
  ∃ tails lk pairs,
    _getElectorBranches budget h electors = Ret (tails, lk)
    ∧ _findMergeEventProof budget h lk tails electors = Ret pairs
    ∧ (∀ p, p ∈ pairs → ancestor h (x p) (y p))
    ∧ (∀ k, k ∈ consensusProofHashes d →
            ∃ p e, p ∈ pairs ∧ e ∈ h ∧ eventHash e = k
                   ∧ ancestor h (x p) e ∧ ancestor h e (y p)).
Proof.
  intros Huniq Hown Hret. unfold findConsensus in Hret. inv_ret Hret.
  destruct r as [tails lk]. inv_ret Hret. rename r into pairs.
  case_bool_decide; [done|]. inv_ret Hret. simpl.
  exists tails, lk, pairs. split; [done|]. split; [done|].
  pose proof (findMergeEventProof_between _ _ _ _ _ _ Huniq Hown Hstep Hstep0)
    as Hpairs.
  split; [intros p Hp; by destruct (Hpairs p Hp)|].
  intros k Hk. apply (proj1 (elem_of_uniqStr _ _)) in Hk.
  apply list_elem_of_In, in_flat_map in Hk as (p & Hp%list_elem_of_In & Hk).
  apply list_elem_of_In, list_elem_of_fmap in Hk as (e & -> & He).
  destruct (Hpairs p Hp) as [_ Hbetween].
  destruct (Hbetween e He) as (Hcan & Hxe & Hey).
  exists p, e. split_and!; [done | by apply canonical_elem | done..].
Qed.

Local Open Scope string_scope.

Lemma proof_contained_witness :
  ∃ tails lk pairs,
    _getElectorBranches 10 s2_history s2_electors = Ret (tails, lk)
    ∧ _findMergeEventProof 10 s2_history lk tails s2_electors = Ret pairs
    ∧ (∀ p, p ∈ pairs → ancestor s2_history (x p) (y p))
    ∧ (∀ k, k ∈ ["a2"; "b2"; "c2"; "d2"; "a3"; "b3"; "c3"; "d3"] →
            ∃ p e, p ∈ pairs ∧ e ∈ s2_history ∧ eventHash e = k
                   ∧ ancestor s2_history (x p) e
                   ∧ ancestor s2_history e (y p)).
Proof.
  apply (proof_contained 10 s2_history 0 s2_electors
           (mkDecision ["a1"; "b1"; "c1"; "d1"]
              ["a2"; "b2"; "c2"; "d2"; "a3"; "b3"; "c3"; "d3"])).
  - apply (bool_decide_unpack _). vm_compute. exact I.
  - apply (bool_decide_unpack _). vm_compute. exact I.
  - vm_compute. reflexivity.
Defined.

(** ** A byzantine mark that does not last *)

(** C4 fails on [fork_history].  When [a5] collects its votes it sees [a4]
    and [a4x], two events of [A] of generation 4, and marks [A] byzantine;
    the tally step of [a5] then stores [a5] itself under [A].  [a6] inherits
    that entry, keeps it, and the support of [a5] is counted in the tally
    of [a6]. *)
Theorem byzantine_mark_overwritten :
  fork_run = Ret (fork_lk, fork_candidates, [fork_a5], fork_before_a5)
  ∧ _generation fork_lk !! "a4" = Some 4
  ∧ _generation fork_lk !! "a4x" = Some 4
  ∧ gatherVotes 20 fork_history fork_lk fork_candidates
      (with_y (<["a5" := fork_a3]>) fork_before_a5) fork_a5 fork_a4
    = Ret (false, fork_gathered_a5)
  ∧ _votes fork_gathered_a5 !! "a5"
    = Some [("A", VFalse); ("B", VEvent fork_b4)]
  ∧ _tally 20 fork_history fork_lk fork_electors fork_gathered_a5 fork_a5
    = Ret (None, fork_tallied_a5)
  ∧ _votes fork_tallied_a5 !! "a5"
    = Some [("A", VEvent fork_a5); ("B", VEvent fork_b4)]
  ∧ tallyEvent 20 fork_history fork_lk fork_candidates fork_electors
      fork_before_a5 fork_a5
    = Ret (None, [fork_a6], fork_tallied_a5)
  ∧ gatherVotes 20 fork_history fork_lk fork_candidates
      (with_y (<["a6" := fork_a3]>) fork_tallied_a5) fork_a6 fork_a5
    = Ret (false, fork_gathered_a6)
  ∧ _votes fork_gathered_a6 !! "a6"
    = Some [("A", VEvent fork_a5); ("B", VEvent fork_b4)]
  ∧ _supporting fork_gathered_a6 !! "a5" = Some [fork_b3]
  ∧ (tallyVotes fork_gathered_a6
       [("A", VEvent fork_a5); ("B", VEvent fork_b4)]).1
    = [mkTallyResult [fork_b3] 1; mkTallyResult [fork_a3; fork_b3] 1].
Proof. split_and!; vm_compute; reflexivity. Qed.

Local Close Scope string_scope.

(** ** Generations and termination of the branch builder *)

Section Branches.
Context (h : History) (tails : list (string * list Event)) (lk : Links).
Hypothesis unique : uniqueHashes h.
Hypothesis links : linked h tails lk.

Lemma branchDepth_inj i j e : branchDepth h i e → branchDepth h j e → i = j.
Proof.
  revert j e. induction i as [|i IH]; intros [|j] e; simpl; try done.
  - intros Hnone (p & Hsome & _). congruence.
  - intros (p & Hsome & _) Hnone. congruence.
  - intros (p & Hp & Hi) (p' & Hp' & Hj). f_equal.
    apply (IH j p); [done|]. congruence.
Qed.

Lemma treeChildren_depth i e c :
  e ∈ h → branchDepth h i e → c ∈ treeChildrenOf (_treeChildren lk) e →
  c ∈ h ∧ branchDepth h (S i) c.
Proof.
  intros He Hi Hc. unfold treeChildrenOf in Hc.
  destruct (_treeChildren lk !! eventHash e) as [cs|] eqn:Hcs;
    [|by apply elem_of_nil in Hc].
  destruct (linked_children _ _ _ links _ _ c Hcs Hc) as (Hin & p & Hp & Hk).
  split; [done|]. exists p. split; [done|].
  assert (p = e) as ->; [|done].
  apply (canonical_inj h); [|by apply elem_canonical | done].
  apply findTreeParent_Some in Hp as [Hp _].
  by apply (parents_canonical h c).
Qed.

Lemma level_depth i level :
  (∀ e, e ∈ level → e ∈ h ∧ branchDepth h i e) →
  ∀ c, c ∈ flat_map (treeChildrenOf (_treeChildren lk)) level →
       c ∈ h ∧ branchDepth h (S i) c.
Proof.
  intros Hlevel c. rewrite list_elem_of_In, in_flat_map.
  intros (e & He%list_elem_of_In & Hc%list_elem_of_In).
  destruct (Hlevel e He) as [Hin Hi]. by apply (treeChildren_depth i e).
Qed.

Lemma foldl_generation (generation : nat) (level : list Event)
    (gen : gmap string nat) (k : string) :
  foldl (λ g event, <[eventHash event := generation]> g) gen level !! k
  = if bool_decide (k ∈ eventHash <$> level) then Some generation
    else gen !! k.
Proof.
  revert gen. induction level as [|e level IH]; intros gen; [done|].
  cbn [foldl]. rewrite IH, fmap_cons.
  destruct (decide (k ∈ eventHash <$> level)) as [Hin|Hout].
  - rewrite !bool_decide_eq_true_2; [done | by right | done].
  - rewrite (bool_decide_eq_false_2 (k ∈ eventHash <$> level)) by done.
    rewrite lookup_insert. destruct (decide (eventHash e = k)) as [<-|Hk].
    + rewrite bool_decide_eq_true_2; [done | left].
    + rewrite bool_decide_eq_false_2; [done|].
      rewrite not_elem_of_cons. split; [congruence | done].
Qed.

(** A generation set at depth 0 is not overwritten by later levels. *)
Lemma setGenerations_tail n i generation level gen gen' t :
  setGenerations n (_treeChildren lk) generation level gen = Ret gen' →
  (∀ e, e ∈ level → e ∈ h ∧ branchDepth h (S i) e) →
  t ∈ h → branchDepth h 0 t →
  gen' !! eventHash t = gen !! eventHash t.
Proof.
  revert i generation level gen.
  induction n as [|n IH]; intros i generation level gen Hret Hlevel Ht H0.
  - destruct level; simpl in Hret; [by inv_ret Hret | done].
  - destruct level as [|e level]; [simpl in Hret; by inv_ret Hret|].
    cbn [setGenerations] in Hret.
    rewrite (IH (S i) _ _ _ Hret); [| |done..].
    + rewrite foldl_generation. rewrite bool_decide_eq_false_2; [done|].
      intros (e' & Heq & He')%list_elem_of_fmap.
      destruct (Hlevel e' He') as [Hin Hdepth].
      apply (canonical_inj h t e') in Heq; [|by apply elem_canonical..].
      subst e'. by pose proof (branchDepth_inj _ _ _ H0 Hdepth).
    + by apply level_depth.
Qed.

Lemma setGenerations_first n level gen gen' t :
  setGenerations n (_treeChildren lk) 1 level gen = Ret gen' →
  (∀ e, e ∈ level → e ∈ h ∧ branchDepth h 0 e) →
  t ∈ h → branchDepth h 0 t →
  gen' !! eventHash t
  = if bool_decide (t ∈ level) then Some 1 else gen !! eventHash t.
Proof.
  intros Hret Hlevel Ht H0. destruct n as [|n].
  - destruct level; simpl in Hret; [|done]. inv_ret Hret.
    rewrite bool_decide_eq_false_2; [done | apply not_elem_of_nil].
  - destruct level as [|e level].
    { simpl in Hret. inv_ret Hret.
      rewrite bool_decide_eq_false_2; [done | apply not_elem_of_nil]. }
    cbn [setGenerations] in Hret.
    rewrite (setGenerations_tail _ 0 _ _ _ _ _ Hret); [| |done..].
    + rewrite foldl_generation.
      destruct (decide (t ∈ e :: level)) as [Hin|Hout].
      * rewrite !bool_decide_eq_true_2; [done..|].
        by apply list_elem_of_fmap_2.
      * rewrite !bool_decide_eq_false_2; [done | done |].
        intros (e' & Heq & He')%list_elem_of_fmap. apply Hout.
        destruct (Hlevel e' He') as [Hin _].
        apply (canonical_inj h t e') in Heq; [|by apply elem_canonical..].
        by subst e'.
    + by apply level_depth.
Qed.

Lemma setAllGenerations_tail budget branches gen gen' t :
  setAllGenerations budget (_treeChildren lk) branches gen = Ret gen' →
  (∀ k ts e, (k, ts) ∈ branches → e ∈ ts → e ∈ h ∧ branchDepth h 0 e) →
  t ∈ h → branchDepth h 0 t →
  gen' !! eventHash t = Some 1
  ∨ (gen' !! eventHash t = gen !! eventHash t
     ∧ ∀ k ts, (k, ts) ∈ branches → t ∉ ts).
Proof.
  revert gen. induction branches as [|[k ts] branches IH];
    intros gen Hret Hbranches Ht H0; cbn [setAllGenerations] in Hret.
  - inv_ret Hret. right. split; [done|]. by intros k ts ?%elem_of_nil.
  - inv_ret Hret. rename r into gen1.
    assert (gen1 !! eventHash t
            = if bool_decide (t ∈ ts) then Some 1 else gen !! eventHash t)
      as Hfirst.
    { apply (setGenerations_first _ _ _ _ _ Hstep); [|done..].
      intros e He. eapply Hbranches; [left | done]. }
    destruct (IH _ Hret) as [Hone|[Hsame Hrest]]; [|done|done|by left|].
    { intros k' ts' e Hk He. eapply Hbranches; [by right | done]. }
    rewrite Hsame, Hfirst.
    case_bool_decide as Hin; [by left|]. right. split; [done|].
    intros k' ts' [[= -> ->]|Hk]%elem_of_cons; [done | by eapply Hrest].
Qed.



End Branches.

Lemma tails_depth h tails lk k ts e :
  linked h tails lk → (k, ts) ∈ tails → e ∈ ts → e ∈ h ∧ branchDepth h 0 e.
Proof.
  intros Hlinks Hk He. apply elem_oget in Hk; [|apply Hlinks].
  destruct (linked_tails _ _ _ Hlinks _ _ e Hk He) as (Hin & _ & Hnone).
  by split.
Qed.

Lemma foldl_linkEvent_generation h electors l acc :
  _generation (foldl (linkEvent h electors) acc l).2 = _generation acc.2.
Proof.
  revert acc. induction l as [|e l IH]; intros [tails lk]; [done|].
  cbn [foldl]. rewrite IH. unfold linkEvent.
  case_bool_decide; [|done]. by destruct (findTreeParent h e).
Qed.

(** The tail of a branch is its generation-1 event. *)
Lemma tail_generation budget h electors tails lk elector ts t :
  uniqueHashes h →
  _getElectorBranches budget h electors = Ret (tails, lk) →
  oget elector tails = Some ts → t ∈ ts →
  _generation lk !! eventHash t = Some 1.
Proof.
  intros Huniq Hbr Hts Ht.
  pose proof (getElectorBranches_linked _ _ _ _ _ Hbr) as Hlinks.
  unfold _getElectorBranches in Hbr.
  pose proof (foldl_linkEvent_generation h electors h ([], noLinks)) as Hgen.
  destruct (foldl (linkEvent h electors) ([], noLinks) h) as [tails0 lk0].
  inv_ret Hbr. simpl in *.
  destruct (linked_tails _ _ _ Hlinks _ _ t Hts Ht) as (Hin & _ & Hnone).
  destruct (setAllGenerations_tail h tails _ Huniq Hlinks budget tails
              (_generation lk0) r t) as [Hone|[_ Hout]]; try done.
  - intros k ts' e. apply (tails_depth _ _ _ _ _ _ Hlinks).
  - exfalso. apply (Hout elector ts); [by apply oget_Some_elem | done].
Qed.


(** ** Tails, X candidates and early returns *)

(** C7: once candidates are selected, an elector with exactly one tail has
    that tail, the generation-1 event of its branch, as its X, with the hash
    of X seeded into [_initDescendants]; any other elector has no X and no
    Y. *)
Theorem candidates_of_tails (budget : nat) (h : History)
    (electors : list string) (tails : list (string * list Event))
    (lk : Links) (c : Candidates) (elector : string) :
  uniqueHashes h →
  _getElectorBranches budget h electors = Ret (tails, lk) →
  _findMergeEventProofCandidates budget h lk tails electors = Ret (Some c) →
  match oget elector tails with
  | Some [tail] =>
      oget elector (xByElector c) = Some tail
      ∧ _generation lk !! eventHash tail = Some 1
      ∧ _initDescendants c !! eventHash tail = Some {[eventHash tail := []]}
  | _ =>
      oget elector (xByElector c) = None ∧ oget elector (yByElector c) = None
  end.
Proof.
  intros Huniq Hbr Hc.
  pose proof (candidates_select_tails _ _ _ _ _ _ elector Hc) as Hx.
  destruct (oget elector tails) as [[|tail [|? ?]]|] eqn:Htails; try done.
  destruct Hx as [Hx Hinit]. split_and!; [done | | done].
  apply (tail_generation _ _ _ _ _ _ _ tail Huniq Hbr Htails). left.
Qed.


Local Open Scope string_scope.

Lemma candidates_of_tails_witness :
  oget "A" [("A", s1_a1)] = Some s1_a1
  ∧ ({["a1" := 1; "a2" := 2; "a3" := 3]} : gmap string nat) !! "a1" = Some 1
  ∧ ({["a1" := {["a1" := []]}]} : gmap string Descendants) !! "a1"
    = Some {["a1" := []]}.
Proof.
  refine (candidates_of_tails 5 s1_history ["A"] [("A", [s1_a1])]
            (mkLinks {["a2" := s1_a1; "a3" := s1_a2]}
                     {["a1" := [s1_a2]; "a2" := [s1_a3]]}
                     {["a1" := 1; "a2" := 2; "a3" := 3]})
            (mkCandidates [("A", s1_a1)] [("A", s1_a1)]
               {["a1" := {["a1" := []]}]} {["a1" := ∅]})
            "A" _ _ _).
  - apply (bool_decide_unpack _). vm_compute. exact I.
  - vm_compute. reflexivity.
  - vm_compute. reflexivity.
Defined.


Local Close Scope string_scope.

(** ** Where the byzantine mark does last *)

Section MarkKept.
Context (budget : nat) (h : History) (lk : Links) (c : Candidates)
  (electors : list string).

Lemma useMostRecentVotingEvent_keeps gen elector votes votingEvent marked :
  oget marked votes = Some VFalse →
  oget marked (_useMostRecentVotingEvent gen elector votes votingEvent)
  = Some VFalse.
Proof.
  intros Hmarked. unfold _useMostRecentVotingEvent.
  destruct (decide (elector = marked)) as [->|Hne].
  - by rewrite Hmarked.
  - destruct (oget elector votes) as [[existing|]|]; [|done|].
    + destruct (genGt _ _); [by rewrite oget_oset_ne|].
      destruct (_ && _); [by rewrite oget_oset_ne | done].
    + by rewrite oget_oset_ne.
Qed.

Lemma updateVote_keeps descendants votes next event marked :
  oget marked votes = Some VFalse →
  oget marked (updateVote lk c descendants (votes, next) event).1
  = Some VFalse.
Proof.
  intros Hmarked. unfold updateVote.
  destruct (descendants !! eventHash event); [|done]. simpl.
  destruct (oget (_getCreator event) (yByElector c)); [|done].
  destruct (genGe _ _); [|done]. by apply useMostRecentVotingEvent_keeps.
Qed.

Lemma foldl_updateVote_keeps descendants l votes next marked :
  oget marked votes = Some VFalse →
  oget marked (foldl (updateVote lk c descendants) (votes, next) l).1
  = Some VFalse.
Proof.
  revert votes next. induction l as [|e l IH]; intros votes next Hmarked;
    [done|].
  cbn [foldl].
  pose proof (updateVote_keeps descendants votes next e marked Hmarked)
    as Hstep.
  destruct (updateVote lk c descendants (votes, next) e) as [votes1 next1].
  by apply IH.
Qed.

Lemma votesLoop_keeps n descendants votes next votes' marked :
  votesLoop lk c n descendants votes next = Ret votes' →
  oget marked votes = Some VFalse → oget marked votes' = Some VFalse.
Proof.
  revert votes next. induction n as [|n IH]; intros votes next Hret Hmarked.
  - destruct next; simpl in Hret; [by inv_ret Hret | done].
  - destruct next as [|event rest]; [simpl in Hret; by inv_ret Hret|].
    cbn [votesLoop] in Hret.
    pose proof (foldl_updateVote_keeps descendants (event :: rest) votes []
                  marked Hmarked) as Hfold.
    destruct (foldl (updateVote lk c descendants) (votes, []) (event :: rest))
      as [votes1 next1].
    by apply (IH _ _ Hret).
Qed.

Lemma collectVotes_keeps event ref electorSet t t' votes marked :
  collectVotes budget h lk c event ref electorSet t = Ret t' →
  _votes t !! eventHash event = Some votes →
  oget marked votes = Some VFalse →
  ∃ votes', _votes t' !! eventHash event = Some votes'
            ∧ oget marked votes' = Some VFalse.
Proof.
  revert t votes. induction electorSet as [|elector rest IH];
    intros t votes Hret Hvotes Hmarked; cbn [collectVotes] in Hret.
  - inv_ret Hret. by exists votes.
  - inv_ret Hret. rewrite Hvotes in Hstep4. injection Hstep4 as <-.
    apply (IH _ r5 Hret); [apply lookup_insert_eq|].
    unfold _updateToMostRecentVotes in Hstep5.
    by apply (votesLoop_keeps _ _ _ _ _ _ Hstep5).
Qed.

Lemma gatherVotes_keeps t event treeParent wait t' votes marked :
  gatherVotes budget h lk c t event treeParent = Ret (wait, t') →
  match _votes t !! eventHash event with
  | Some own => own = votes
  | None => _votes t !! eventHash treeParent = Some votes
  end →
  oget marked votes = Some VFalse →
  ∃ votes', _votes t' !! eventHash event = Some votes'
            ∧ oget marked votes' = Some VFalse.
Proof.
  unfold gatherVotes. intros Hret Hvotes Hmarked.
  set (t0 := match _votes t !! eventHash event with
             | Some _ => t
             | None => with_votes _ t
             end) in Hret.
  assert (_votes t0 !! eventHash event = Some votes) as Hvotes0.
  { unfold t0. destruct (_votes t !! eventHash event) as [own|] eqn:Hown;
      [by subst|].
    simpl. by rewrite lookup_insert_eq, Hvotes. }
  clearbody t0.
  destruct (_yDescendants t0 !! eventHash event) as [ref|];
    [|destruct (_yDescendants t0 !! eventHash treeParent) as [ref|]];
    inv_ret Hret;
    (eapply collectVotes_keeps; [exact Hstep | exact Hvotes0 | done]).
Qed.

Lemma tally_keeps t event result t' votes marked :
  _tally budget h lk electors t event = Ret (result, t') →
  _votes t !! eventHash event = Some votes →
  oget marked votes = Some VFalse → marked ≠ _getCreator event →
  ∃ votes', _votes t' !! eventHash event = Some votes'
            ∧ oget marked votes' = Some VFalse.
Proof.
  unfold _tally. intros Hret Hvotes Hmarked Hne. rewrite Hvotes in Hret.
  simpl in Hret.
  assert (∀ t1, _votes t1 = _votes t →
                ∃ votes', _votes t1 !! eventHash event = Some votes'
                          ∧ oget marked votes' = Some VFalse) as Hframe.
  { intros t1 ->. by exists votes. }
  destruct (tallyVotes t votes) as [tally t1] eqn:Htally.
  assert (_votes t1 = _votes t) as Hv1.
  { unfold tallyVotes in Htally. destruct (foldl countVote _ _).
    by injection Htally as _ <-. }
  inv_ret Hret. rename r into nextChoice, r0 into checked.
  assert (match checked with
          | inl _ => True
          | inr (_, t2) => _votes t2 = _votes t1
          end) as Hchecked.
  { unfold checkPreCommit in Hstep0.
    destruct (existingPreCommitOf lk t1 event) as [pc|];
      [|by inv_ret Hstep0].
    inv_ret Hstep0. destruct (negb _).
    { inv_ret Hstep0. by destruct (_confirmPoint t1 !! eventHash pc). }
    destruct (_toConfirm t1 !! eventHash event); [|by inv_ret Hstep0].
    destruct (bool_decide _); by inv_ret Hstep0. }
  destruct checked as [result0|[existing t2]].
  - inv_ret Hret. by apply Hframe.
  - inv_ret Hret. destruct r as [existing' t3]. inv_ret Hret.
    exists (oset (_getCreator event) (VEvent event) votes).
    split; [simpl; apply lookup_insert_eq|].
    rewrite oget_oset_ne; [done | congruence].
Qed.

(** A byzantine mark on an elector other than the creator of the event
    survives the processing of the event, and a marked entry adds nothing to
    a tally. *)
Lemma mark_kept_for_others t event result pushed t' treeParent votes marked :
  tallyEvent budget h lk c electors t event = Ret (result, pushed, t') →
  _treeParent lk !! eventHash event = Some treeParent →
  _supporting t !! eventHash event = None →
  match _votes t !! eventHash event with
  | Some own => own = votes
  | None => _votes t !! eventHash treeParent = Some votes
  end →
  oget marked votes = Some VFalse → marked ≠ _getCreator event →
  (∃ votes', _votes t' !! eventHash event = Some votes'
             ∧ oget marked votes' = Some VFalse)
  ∧ ∀ acc, countVote acc VFalse = acc.
Proof.
  unfold tallyEvent. intros Hret Htp Hsup Hvotes Hmarked Hne.
  split; [|by intros [tally supporting]].
  rewrite Htp in Hret. simpl in Hret.
  set (t0 := match _y t !! eventHash treeParent with
             | Some y => with_y _ t
             | None => t
             end) in Hret.
  assert (_votes t0 = _votes t ∧ _supporting t0 = _supporting t) as [Hv0 Hs0].
  { unfold t0. by destruct (_y t !! eventHash treeParent). }
  clearbody t0. rewrite Hs0, Hsup in Hret. inv_ret Hret.
  destruct r as [wait t1]. rewrite <- Hv0 in Hvotes.
  destruct (gatherVotes_keeps _ _ _ _ _ _ _ Hstep Hvotes Hmarked)
    as (votes1 & Hvotes1 & Hmarked1).
  destruct wait; [inv_ret Hret; by exists votes1|].
  inv_ret Hret. destruct r as [result1 t2].
  destruct (tally_keeps _ _ _ _ _ _ Hstep0 Hvotes1 Hmarked1 Hne)
    as (votes2 & Hvotes2 & Hmarked2).
  destruct result1; inv_ret Hret; by exists votes2.
Qed.

End MarkKept.
